(** * Runner.run of lighthouse-core/runner.js

    A shallow embedding of the pipeline coordinator [Runner.run] and the
    properties of its mode selection, phase sequencing, audit fan-out and
    report assembly.

    The coordinator is a single JavaScript function.  Its body has two
    parts: a synchronous part, which writes to the [opts] object, logs
    warnings, and builds a promise chain in the variable [run]; and the
    promise chain itself, whose callbacks execute after the synchronous
    part has returned (or thrown).  Both are modelled:

    - the synchronous part threads the [opts] record and a log through
      the statements of the function and ends either in [Threw] or in
      [Returned];
    - a promise is the pair of the events its callbacks emit and the way
      it settles; [then_] chains a fulfilment callback.

    The collaborators ([url], [GatherRunner], [assetSaver], the audits,
    [Aggregator]) are outside the file: they are parameters, and every
    call into one of them is recorded as an [event]. *)

From Stdlib Require Import Ascii String.
From stdpp Require Import base gmap strings list sorting.

(** ** Values a JavaScript call can hand back *)

(** Exceptions.  The message of a [TypeError] raised by the engine is
    the engine's own and differs between versions; the properties below
    depend on the kind of the error, not on its text. *)
Inductive error : Type :=
  | TypeError (msg : string)
  | Error (msg : string).

(** How a promise settles. *)
Inductive settled (A : Type) : Type :=
  | Fulfilled (v : A)
  | Rejected (e : error).
Arguments Fulfilled {A} v.
Arguments Rejected {A} e.

(** What a call into a collaborator does: it throws, it returns a plain
    value, or it returns a promise, which settles [t] ticks later. *)
Inductive answer (A : Type) : Type :=
  | Throws (e : error)
  | Returns (v : A)
  | ReturnsPromise (t : nat) (s : settled A).
Arguments Throws {A} e.
Arguments Returns {A} v.
Arguments ReturnsPromise {A} t s.

(** The object [url.parse] returns; a component that is absent is [null]
    in JavaScript and [None] here. *)
Record ParsedURL : Type := {
  protocol : option string;
  hostname : option string;
  pathname : option string
}.

(** [String.prototype.includes]. *)
Fixpoint includes (search s : string) : bool :=
  String.prefix search s ||
  match s with
  | EmptyString => false
  | String _ rest => includes search rest
  end.

(** [x === 'literal'] for a component that may be [null]. *)
Definition strict_eq (x : option string) (lit : string) : bool :=
  match x with
  | Some s => bool_decide (s = lit)
  | None => false
  end.

Section Model.

Context {Driver Pass Artifacts Payload AggregationSpec AggregationResult : Type}.

(** ** Data *)

(** An audit result; the coordinator reads its [name] and nothing else. *)
Record AuditResult : Type := {
  name : string;
  payload : Payload
}.

(** An entry of [config.audits]: [audit.meta.description] and
    [audit.audit]. *)
Record Audit : Type := {
  description : string;
  audit : Artifacts -> answer AuditResult
}.

(** [opts.config].  A property that is missing (or otherwise falsy) is
    [None]; arrays and objects, the empty array included, are truthy. *)
Record Config : Type := {
  passes : option (list Pass);
  audits : option (list Audit);
  artifacts : option Artifacts;
  auditResults : option (list AuditResult);
  aggregations : option AggregationSpec
}.

Record Flags : Type := {
  saveArtifacts : bool;
  saveAssets : bool
}.

(** The [opts] object.  [initialUrl] and [driver] are properties the
    caller need not supply. *)
Record Opts : Type := {
  url : string;
  config : Config;
  flags : option Flags;
  initialUrl : option string;
  driver : option Driver
}.

(** The three property writes of [run]. *)
Definition set_initialUrl (o : Opts) (u : string) : Opts :=
  {| url := url o; config := config o; flags := flags o;
     initialUrl := Some u; driver := driver o |}.

Definition set_url (o : Opts) (u : string) : Opts :=
  {| url := u; config := config o; flags := flags o;
     initialUrl := initialUrl o; driver := driver o |}.

Definition set_driver (o : Opts) (d : Driver) : Opts :=
  {| url := url o; config := config o; flags := flags o;
     initialUrl := initialUrl o; driver := Some d |}.


(** The object literal returned when aggregations are configured. *)
Record Report : Type := {
  report_initialUrl : option string;
  report_url : string;
  report_audits : gmap string AuditResult;
  report_aggregations : list AggregationResult
}.

(** What the promise returned by [run] resolves to. *)
Inductive run_value : Type :=
  | Flat (auditResults : list AuditResult)
  | Shaped (report : Report).

(** ** Events *)

Inductive event : Type :=
  | Warn (tag msg : string)
  | Status (msg : string)
  | StatusEnd (msg : string)
  | Gather (ps : list Pass) (o : Opts)
  | SaveArtifacts (a : Artifacts)
  | SaveAssets (o : Opts) (a : Artifacts)
  | RunAudit (i : nat) (a : Artifacts)
  | Aggregate (spec : AggregationSpec) (rs : list AuditResult).

Definition is_gather (e : event) : bool :=
  match e with Gather _ _ => true | _ => false end.

Definition is_persist (e : event) : bool :=
  match e with SaveArtifacts _ | SaveAssets _ _ => true | _ => false end.

Definition is_audit (e : event) : bool :=
  match e with RunAudit _ _ => true | _ => false end.

Definition is_aggregate (e : event) : bool :=
  match e with Aggregate _ _ => true | _ => false end.

Definition is_warn (e : event) : bool :=
  match e with Warn _ _ => true | _ => false end.

(** A call into gathering, persistence, an audit or aggregation. *)
Definition is_collaborator (e : event) : bool :=
  is_gather e || is_persist e || is_audit e || is_aggregate e.

(** ** The collaborators *)

Record Collaborators : Type := {
  url_parse : string -> ParsedURL;
  url_format : ParsedURL -> string;
  GatherRunner_run : list Pass -> Opts -> answer Artifacts;
  assetSaver_saveArtifacts : Artifacts -> answer unit;
  assetSaver_saveAssets : Opts -> Artifacts -> answer unit;
  Aggregator_aggregate :
    AggregationSpec -> list AuditResult -> answer (list AggregationResult)
}.

(** ** Promises *)

Definition promise (A : Type) : Type := (list event * settled A)%type.

Definition resolve {A} (v : A) : promise A := ([], Fulfilled v).

(** [p.then(f)]: [f] runs when [p] fulfils; a rejection skips it. *)
Definition then_ {A B} (p : promise A) (f : A -> promise B) : promise B :=
  match p with
  | (tr, Fulfilled v) => let '(tr', s) := f v in (tr ++ tr', s)
  | (tr, Rejected e) => (tr, Rejected e)
  end.

(** A callback's return value resolves the promise: a returned promise
    is adopted, an exception rejects. *)
Definition adopt {A} (r : answer A) : settled A :=
  match r with
  | Throws e => Rejected e
  | Returns v => Fulfilled v
  | ReturnsPromise _ s => s
  end.

(** [_ => f(x)]: one call, whose answer is returned. *)
Definition call {A} (ev : event) (r : answer A) : promise A :=
  ([ev], adopt r).

(** [x => { f(x); return x; }]: one call, whose answer is dropped. *)
Definition call_and_return {A B} (ev : event) (r : answer A) (x : B) : promise B :=
  ([ev], match r with Throws e => Rejected e | _ => Fulfilled x end).

(** ** The audit fan-out *)

(** The promise the [map] callback returns for one audit:
    [Promise.resolve(audit.audit(artifacts)).then(...)]. *)
Record started : Type := {
  started_status : string;
  started_at : nat;
  started_result : settled AuditResult
}.

Definition status_of (a : Audit) : string :=
  "Evaluating: " +:+ description a.

(** [config.audits.map(audit => ...)], left to right.  The third
    component is the exception that ended the [map], if an audit threw. *)
Fixpoint start_audits (i : nat) (l : list Audit) (a : Artifacts)
  : list event * list started * option error :=
  match l with
  | [] => ([], [], None)
  | d :: rest =>
      let status := status_of d in
      match audit d a with
      | Throws e => ([Status status; RunAudit i a], [], Some e)
      | Returns v =>
          let '(evs, ps, thrown) := start_audits (S i) rest a in
          (Status status :: RunAudit i a :: evs,
           {| started_status := status; started_at := 0;
              started_result := Fulfilled v |} :: ps, thrown)
      | ReturnsPromise t s =>
          let '(evs, ps, thrown) := start_audits (S i) rest a in
          (Status status :: RunAudit i a :: evs,
           {| started_status := status; started_at := t;
              started_result := s |} :: ps, thrown)
      end
  end.

(** Completion order: by settling time, and by position among promises
    that settle at the same time. *)
Fixpoint insert_by_time (p : started) (l : list started) : list started :=
  match l with
  | [] => [p]
  | q :: l' =>
      if started_at p <=? started_at q then p :: q :: l'
      else q :: insert_by_time p l'
  end.

Definition completion_order (ps : list started) : list started :=
  foldr insert_by_time [] ps.

Definition value_of (p : started) : option AuditResult :=
  match started_result p with Fulfilled v => Some v | Rejected _ => None end.

Definition rejection_of (p : started) : option error :=
  match started_result p with Fulfilled _ => None | Rejected e => Some e end.

(** The [statusEnd] lines, logged as the audits fulfil. *)
Definition status_ends (ps : list started) : list event :=
  omap (fun p => match started_result p with
                 | Fulfilled _ => Some (StatusEnd (started_status p))
                 | Rejected _ => None
                 end) (completion_order ps).

(** [Promise.all]: the values in the order of the array, or the first
    rejection to happen. *)
Definition promise_all (ps : list started) : settled (list AuditResult) :=
  match omap rejection_of (completion_order ps) with
  | e :: _ => Rejected e
  | [] => Fulfilled (omap value_of ps)
  end.

(** [artifacts => Promise.all(config.audits.map(...))]. *)
Definition run_audits (l : list Audit) (a : Artifacts) : promise (list AuditResult) :=
  let '(evs, ps, thrown) := start_audits 0 l a in
  (evs ++ status_ends ps,
   match thrown with
   | Some e => Rejected e
   | None => promise_all ps
   end).

(** ** Mode selection *)

Definition validPassesAndAudits (c : Config) : bool :=
  bool_decide (is_Some (passes c)) && bool_decide (is_Some (audits c)).


Inductive mode : Type :=
  | GatherAndAudit (ps : list Pass) (l : list Audit)
  | ArtifactsAndAudit (a : Artifacts) (l : list Audit)
  | ResultsOnly (rs : list AuditResult)
  | NoMode.

(** The [if]/[else if]/[else] ladder of [run], with the properties
    each branch goes on to read. *)
Definition classify (c : Config) : mode :=
  match passes c, audits c with
  | Some ps, Some l => GatherAndAudit ps l
  | _, _ =>
      match artifacts c, audits c with
      | Some a, Some l => ArtifactsAndAudit a l
      | _, _ =>
          match auditResults c with
          | Some rs => ResultsOnly rs
          | None => NoMode
          end
      end
  end.

(** ** [Runner.run] *)

Inductive completion : Type :=
  | Threw (e : error)
  | Returned (p : settled run_value).

(** What a call of [run] leaves behind: the [opts] object as it is
    afterwards, what was logged during the call, how the call ended,
    and the events of the promise chain that the call had built (they
    happen after the call, also when it threw). *)
Record run_result : Type := {
  final_opts : Opts;
  logged : list event;
  result : completion;
  scheduled : list event
}.

Definition trace (r : run_result) : list event := logged r ++ scheduled r.

(** Lines 106-109: [formatted[audit.name] = audit] on an object literal.
    The mapping holds the own properties of that object.  An assignment
    to the key [__proto__] goes to the setter that [Object.prototype]
    provides: it sets the prototype and adds no own property. *)
Definition formatAudits (l : list AuditResult) : gmap string AuditResult :=
  foldl (fun formatted a =>
           if bool_decide (name a = "__proto__") then formatted
           else <[name a := a]> formatted) ∅ l.

Definition config_error : error :=
  Error "The config must provide passes and audits, artifacts and audits, or auditResults".

Section Run.

Variable env : Collaborators.

(** Lines 96-118: the optional aggregation step. *)
Definition aggregate (o : Opts) (c : Config)
    (run_ : promise (list AuditResult)) : promise run_value :=
  match aggregations c with
  | Some spec =>
      then_
        (then_ run_ (fun rs =>
           then_ (call (Aggregate spec rs) (Aggregator_aggregate env spec rs))
                 (fun aggs => resolve (rs, aggs))))
        (fun results =>
           resolve (Shaped {| report_initialUrl := initialUrl o;
                              report_url := url o;
                              report_audits := formatAudits (fst results);
                              report_aggregations := snd results |}))
  | None => then_ run_ (fun rs => resolve (Flat rs))
  end.

(** Line 120: [return run]. *)
Definition aggregate_and_return (o : Opts) (c : Config) (lg : list event)
    (run_ : promise (list AuditResult)) : run_result :=
  let run' := aggregate o c run_ in
  {| final_opts := o; logged := lg;
     result := Returned (snd run'); scheduled := fst run' |}.

(** Lines 62-87: the two flags and the audits. *)
Definition persist_and_audit (o : Opts) (c : Config) (lg : list event)
    (l : list Audit) (run_ : promise Artifacts) : run_result :=
  match flags o with
  | None =>
      {| final_opts := o; logged := lg;
         result := Threw (TypeError "Cannot read property 'saveArtifacts' of undefined");
         scheduled := fst run_ |}
  | Some f =>
      let run1 :=
        if saveArtifacts f then
          then_ run_ (fun a =>
            call_and_return (SaveArtifacts a) (assetSaver_saveArtifacts env a) a)
        else run_ in
      let run2 :=
        if saveAssets f then
          then_ run1 (fun a =>
            call_and_return (SaveAssets o a) (assetSaver_saveAssets env o a) a)
        else run1 in
      let run3 := then_ run2 (fun a => run_audits l a) in
      aggregate_and_return o c lg run3
  end.

Definition https_warnings : list event :=
  [Warn "Lighthouse" "The URL provided should be on HTTPS";
   Warn "Lighthouse" "Performance stats will be skewed redirecting from HTTP to HTTPS."].

Definition run (d : Driver) (opts : Opts) : run_result :=
  let c := config opts in
  let opts := set_initialUrl opts (url opts) in
  let parsedURL := url_parse env (url opts) in
  let opts := set_url opts (url_format env parsedURL) in
  match protocol parsedURL with
  | None =>
      {| final_opts := opts; logged := [];
         result := Threw (TypeError "Cannot read property 'includes' of null");
         scheduled := [] |}
  | Some proto =>
      let lg :=
        if negb (includes "https" proto)
           || strict_eq (hostname parsedURL) "http://localhost"
        then https_warnings else [] in
      let run0 : promise unit := resolve tt in
      match classify c with
      | GatherAndAudit ps l =>
          let opts := set_driver opts d in
          persist_and_audit opts c lg l
            (then_ run0 (fun _ => call (Gather ps opts) (GatherRunner_run env ps opts)))
      | ArtifactsAndAudit a l =>
          persist_and_audit opts c lg l (then_ run0 (fun _ => resolve a))
      | ResultsOnly rs =>
          aggregate_and_return opts c lg (then_ run0 (fun _ => resolve rs))
      | NoMode =>
          {| final_opts := opts; logged := lg;
             result := Threw config_error; scheduled := [] |}
      end
  end.

End Run.

End Model.

Arguments AuditResult : clear implicits.
Arguments Audit : clear implicits.
Arguments Config : clear implicits.
Arguments Opts : clear implicits.
Arguments Report : clear implicits.
Arguments run_value : clear implicits.
Arguments event : clear implicits.
Arguments Collaborators : clear implicits.
Arguments started : clear implicits.
Arguments mode : clear implicits.
Arguments completion : clear implicits.
Arguments run_result : clear implicits.

(** ** [Runner.getAuditList] *)

(** [/\.js$/.test(f)]: the pattern is tried at every position of [f] and
    matches where [.js] is all that is left of it. *)
Fixpoint test_js (f : string) : bool :=
  match f with
  | EmptyString => false
  | String _ rest => bool_decide (f = ".js") || test_js rest
  end.

(** What [getAuditList] reads: [__dirname], [path.join] and
    [fs.readdirSync], which returns the entries of a directory or throws. *)
Record Files : Type := {
  dirname : string;
  path_join : string -> string -> string;
  fs_readdirSync : string -> error + list string
}.

Definition getAuditList (io : Files) : error + list string :=
  match fs_readdirSync io (path_join io (dirname io) "./audits") with
  | inl e => inl e
  | inr files => inr (List.filter test_js files)
  end.

(** ** Vocabulary of the statements *)

Section Vocabulary.

Context {Driver Pass Artifacts Payload AggregationSpec AggregationResult : Type}.
Variable env :
  Collaborators Driver Pass Artifacts Payload AggregationSpec AggregationResult.

Local Abbreviation Opts := (Opts Driver Pass Artifacts Payload AggregationSpec).
Local Abbreviation Config := (Config Pass Artifacts Payload AggregationSpec).
Local Abbreviation Audit := (Audit Artifacts Payload).
Local Abbreviation AuditResult := (AuditResult Payload).
Local Abbreviation event := (event Driver Pass Artifacts Payload AggregationSpec).

(** The URL handed to [run] parses with a scheme, so that
    [parsedURL.protocol] is a string. *)
Definition has_scheme (opts : Opts) : Prop :=
  is_Some (protocol (url_parse env (url opts))).

(** The configuration selects Mode A or Mode B with the audits [l], and
    the first callback of the chain resolves to the artifacts [a]: the
    gatherer's answer in Mode A, [config.artifacts] in Mode B. *)
Definition yields_artifacts (o : Opts) (c : Config) (l : list Audit)
    (a : Artifacts) : Prop :=
  match classify c with
  | GatherAndAudit ps l' => l' = l ∧ adopt (GatherRunner_run env ps o) = Fulfilled a
  | ArtifactsAndAudit a' l' => l' = l ∧ a' = a
  | _ => False
  end.

Definition thrown_by {A} (r : answer A) : option error :=
  match r with Throws e => Some e | _ => None end.

(** The exception, if any, thrown by the persistence calls that the
    flags switch on, in the order of the chain. *)
Definition persistence_throws (f : Flags) (o : Opts) (a : Artifacts) : option error :=
  match (if saveArtifacts f then thrown_by (assetSaver_saveArtifacts env a) else None) with
  | Some e => Some e
  | None => if saveAssets f then thrown_by (assetSaver_saveAssets env o a) else None
  end.

(** The persistence calls made before the audits start. *)
Definition persistence_calls (f : Flags) (o : Opts) (a : Artifacts) : list event :=
  (if saveArtifacts f then [SaveArtifacts a] else []) ++
  (if saveAssets f then
     match (if saveArtifacts f then thrown_by (assetSaver_saveArtifacts env a) else None) with
     | Some _ => []
     | None => [SaveAssets o a]
     end
   else []).

(** The audit [d] fails on [a]: it throws, or its promise rejects. *)
Definition audit_fails (a : Artifacts) (d : Audit) (e : error) : Prop :=
  adopt (audit d a) = Rejected e.

(** The audit [d] succeeds on [a] with [r], at once or later. *)
Definition audit_yields (a : Artifacts) (d : Audit) (r : AuditResult) : Prop :=
  adopt (audit d a) = Fulfilled r.

(** The events of the audit fan-out on [a]: status lines and audit
    calls on [a]. *)
Definition audit_phase_event (a : Artifacts) (ev : event) : Prop :=
  match ev with
  | Status _ | StatusEnd _ => True
  | RunAudit _ a' => a' = a
  | _ => False
  end.

(** The events that can follow the first callback of the chain. *)
Definition later_event (ev : event) : Prop :=
  is_gather ev = false ∧ is_warn ev = false.

(** The events that can follow the audits. *)
Definition final_event (ev : event) : Prop :=
  is_gather ev = false ∧ is_warn ev = false ∧
  is_persist ev = false ∧ is_audit ev = false.

(** The [opts] object after lines 32-35. *)
Definition normalized (opts : Opts) : Opts :=
  set_url (set_initialUrl opts (url opts))
          (url_format env (url_parse env (url opts))).

(** The report assembled from the audit results [rs] and the
    aggregations [aggs] of a call on [opts]. *)
Definition report_of (opts : Opts) (rs : list AuditResult)
    (aggs : list AggregationResult) : Report Payload AggregationResult :=
  {| report_initialUrl := Some (url opts);
     report_url := url_format env (url_parse env (url opts));
     report_audits := formatAudits rs;
     report_aggregations := aggs |}.

(** The chain of a call on [opts] gets as far as an audit-result
    collection [rs]: the URL parsed with a scheme, and either the
    configuration is in Mode C and [rs] is [config.auditResults], or it
    is in Mode A or B, [opts.flags] is there, the artifacts arrived, no
    persistence call threw, and every audit succeeded, [rs] being their
    results in the order of [config.audits]. *)
Definition results_available (dr : Driver) (opts : Opts)
    (rs : list AuditResult) : Prop :=
  has_scheme opts ∧
  match classify (config opts) with
  | ResultsOnly rs' => rs' = rs
  | GatherAndAudit _ l | ArtifactsAndAudit _ l =>
      ∃ f a, flags opts = Some f ∧
             yields_artifacts (final_opts (run env dr opts)) (config opts) l a ∧
             persistence_throws f (final_opts (run env dr opts)) a = None ∧
             Forall2 (audit_yields a) l rs
  | NoMode => False
  end.

(** What lines 37-40 log for a URL that parses with the scheme [proto]. *)
Definition url_warnings (opts : Opts) (proto : string) : list event :=
  if negb (includes "https" proto)
     || strict_eq (hostname (url_parse env (url opts))) "http://localhost"
  then https_warnings else [].

(** When the answer of a call settles: at once, unless it is a promise. *)
Definition settle_time {A} (r : answer A) : nat :=
  match r with
  | ReturnsPromise t _ => t
  | _ => 0
  end.

(** The status lines and the calls that the [map] of line 80 makes,
    audit by audit, from position [i] on. *)
Fixpoint announcements (i : nat) (l : list Audit) (a : Artifacts) : list event :=
  match l with
  | [] => []
  | d :: l' => Status (status_of d) :: RunAudit i a :: announcements (S i) l' a
  end.

(** The [statusEnd] line of the audit [d] on [a]: there is one when the
    audit succeeds. *)
Definition status_end_of (a : Artifacts) (d : Audit) : option event :=
  match adopt (audit d a) with
  | Fulfilled _ => Some (StatusEnd (status_of d))
  | Rejected _ => None
  end.

(** The call of the aggregator after audits that settled as [s]. *)
Definition aggregate_calls (c : Config) (s : settled (list AuditResult)) : list event :=
  match s, aggregations c with
  | Fulfilled rs, Some spec => [Aggregate spec rs]
  | _, _ => []
  end.

End Vocabulary.

(** ** A concrete instance

    Small collaborators on which the model can be run: a [url] library
    for lower-case [scheme://host/path] strings, a gatherer and an
    aggregator that answer at once, and a few audits. *)

Module Demo.

Fixpoint split_on (c : Ascii.ascii) (s : string) : option (string * string) :=
  match s with
  | EmptyString => None
  | String x rest =>
      if Ascii.eqb x c then Some (EmptyString, rest)
      else match split_on c rest with
           | Some (l, r) => Some (String x l, r)
           | None => None
           end
  end.

(** [url.parse] on [scheme://host] and [scheme://host/path]; a string
    without [://] has no protocol and no hostname. *)
Definition parse (s : string) : ParsedURL :=
  match split_on ":" s with
  | Some (scheme, String "/" (String "/" rest)) =>
      match split_on "/" rest with
      | Some (host, path) =>
          {| protocol := Some (scheme +:+ ":"); hostname := Some host;
             pathname := Some ("/" +:+ path) |}
      | None =>
          {| protocol := Some (scheme +:+ ":"); hostname := Some rest;
             pathname := None |}
      end
  | _ => {| protocol := None; hostname := None; pathname := Some s |}
  end.

(** [url.format]: an absent path of a URL with a host is written [/]. *)
Definition format (p : ParsedURL) : string :=
  match protocol p, hostname p with
  | Some proto, Some host => proto +:+ "//" +:+ host +:+ default "/" (pathname p)
  | _, _ => default "" (pathname p)
  end.

Definition result_a : AuditResult nat := {| name := "a"; payload := 1 |}.
Definition result_b : AuditResult nat := {| name := "b"; payload := 2 |}.
Definition result_a' : AuditResult nat := {| name := "a"; payload := 3 |}.

(** Audits over artifacts that are plain strings. *)
Definition audit_a : Audit string nat :=
  {| description := "first"; audit := fun _ => Returns result_a |}.
Definition audit_b : Audit string nat :=
  {| description := "second"; audit := fun _ => ReturnsPromise 5 (Fulfilled result_b) |}.
Definition audit_a' : Audit string nat :=
  {| description := "third"; audit := fun _ => Returns result_a' |}.
Definition audit_late : Audit string nat :=
  {| description := "late"; audit := fun _ => ReturnsPromise 9 (Fulfilled result_a) |}.
Definition audit_failing : Audit string nat :=
  {| description := "failing";
     audit := fun _ => ReturnsPromise 2 (Rejected (Error "audit failed")) |}.

(** All collaborators answer at once. *)
Definition env : Collaborators unit string string nat string nat :=
  {| url_parse := parse;
     url_format := format;
     GatherRunner_run := fun _ _ => Returns "gathered";
     assetSaver_saveArtifacts := fun _ => Returns tt;
     assetSaver_saveAssets := fun _ _ => Returns tt;
     Aggregator_aggregate := fun _ rs => Returns (payload <$> rs) |}.

(** The same, but saving the artifacts fails asynchronously: the call
    returns a promise, which rejects later. *)
Definition env_save_rejects : Collaborators unit string string nat string nat :=
  {| url_parse := parse;
     url_format := format;
     GatherRunner_run := fun _ _ => Returns "gathered";
     assetSaver_saveArtifacts :=
       fun _ => ReturnsPromise 1 (Rejected (Error "ENOSPC"));
     assetSaver_saveAssets := fun _ _ => Returns tt;
     Aggregator_aggregate := fun _ rs => Returns (payload <$> rs) |}.

(** The same as [env], but saving the artifacts throws. *)
Definition env_save_throws : Collaborators unit string string nat string nat :=
  {| url_parse := parse;
     url_format := format;
     GatherRunner_run := fun _ _ => Returns "gathered";
     assetSaver_saveArtifacts := fun _ => Throws (Error "EACCES");
     assetSaver_saveAssets := fun _ _ => Returns tt;
     Aggregator_aggregate := fun _ rs => Returns (payload <$> rs) |}.


Definition request (u : string) (c : Config string string nat string)
    (f : option Flags) : Opts unit string string nat string :=
  {| url := u; config := c; flags := f; initialUrl := None; driver := None |}.

Definition no_flags : Flags := {| saveArtifacts := false; saveAssets := false |}.
Definition save_flags : Flags := {| saveArtifacts := true; saveAssets := true |}.

(** Mode A, with [artifacts] supplied as well. *)
Definition config_gather (l : list (Audit string nat)) (agg : option string)
    : Config string string nat string :=
  {| passes := Some ["pass-1"]; audits := Some l; artifacts := Some "supplied";
     auditResults := None; aggregations := agg |}.

(** Mode B. *)
Definition config_artifacts (l : list (Audit string nat)) (agg : option string)
    : Config string string nat string :=
  {| passes := None; audits := Some l; artifacts := Some "supplied";
     auditResults := None; aggregations := agg |}.

(** Mode C. *)
Definition config_results (agg : option string) : Config string string nat string :=
  {| passes := None; audits := None; artifacts := None;
     auditResults := Some [result_a; result_b]; aggregations := agg |}.


Definition request_gather :=
  request "https://example.com/" (config_gather [audit_late; audit_b] None)
          (Some save_flags).

Definition request_gather_no_flags :=
  request "https://example.com/" (config_gather [audit_late; audit_b] None) None.

Definition request_artifacts :=
  request "https://example.com/" (config_artifacts [audit_late; audit_b] (Some "agg"))
          (Some save_flags).

Definition request_same_name :=
  request "https://example.com/"
          (config_artifacts [audit_a; audit_b; audit_a'] (Some "agg"))
          (Some no_flags).

Definition request_failing :=
  request "https://example.com/"
          (config_artifacts [audit_b; audit_failing; audit_a] (Some "agg"))
          (Some no_flags).

Definition request_results := request "http://example.com" (config_results (Some "agg")) None.

Definition request_results_flat := request "http://example.com" (config_results None) None.

Definition request_secure := request "https://example.com/" (config_results None) None.

(** An audit that throws, and requests around it. *)
Definition audit_throwing : Audit string nat :=
  {| description := "throwing"; audit := fun _ => Throws (Error "audit threw") |}.

Definition request_throwing :=
  request "https://example.com/"
          (config_artifacts [audit_b; audit_throwing; audit_a] (Some "agg"))
          (Some no_flags).

Definition request_no_audits :=
  request "https://example.com/" (config_artifacts [] (Some "agg")) (Some save_flags).

(** The gatherer rejects. *)
Definition env_gather_rejects : Collaborators unit string string nat string nat :=
  {| url_parse := parse;
     url_format := format;
     GatherRunner_run := fun _ _ => ReturnsPromise 3 (Rejected (Error "no page"));
     assetSaver_saveArtifacts := fun _ => Returns tt;
     assetSaver_saveAssets := fun _ _ => Returns tt;
     Aggregator_aggregate := fun _ rs => Returns (payload <$> rs) |}.

(** The aggregator rejects. *)
Definition env_aggregate_rejects : Collaborators unit string string nat string nat :=
  {| url_parse := parse;
     url_format := format;
     GatherRunner_run := fun _ _ => Returns "gathered";
     assetSaver_saveArtifacts := fun _ => Returns tt;
     assetSaver_saveAssets := fun _ _ => Returns tt;
     Aggregator_aggregate := fun _ _ => ReturnsPromise 1 (Rejected (Error "no score")) |}.

(** A result named [__proto__], two audits that fail at different
    times, and requests whose URL has no scheme. *)
Definition result_proto : AuditResult nat := {| name := "__proto__"; payload := 4 |}.

Definition audit_proto : Audit string nat :=
  {| description := "proto"; audit := fun _ => Returns result_proto |}.

Definition request_proto :=
  request "https://example.com/"
          (config_artifacts [audit_a; audit_proto] (Some "agg")) (Some no_flags).

Definition audit_failing_late : Audit string nat :=
  {| description := "failing late";
     audit := fun _ => ReturnsPromise 7 (Rejected (Error "late failure")) |}.

Definition request_two_failing :=
  request "https://example.com/"
          (config_artifacts [audit_failing_late; audit_failing] (Some "agg"))
          (Some no_flags).




(** Collaborators whose page-session handles are numbers. *)
Definition env_handles : Collaborators nat string string nat string nat :=
  {| url_parse := parse;
     url_format := format;
     GatherRunner_run := fun _ _ => Returns "gathered";
     assetSaver_saveArtifacts := fun _ => Returns tt;
     assetSaver_saveAssets := fun _ _ => Returns tt;
     Aggregator_aggregate := fun _ rs => Returns (payload <$> rs) |}.

Definition request_handles : Opts nat string string nat string :=
  {| url := "https://example.com/";
     config := config_artifacts [audit_a; audit_b] (Some "agg");
     flags := Some save_flags; initialUrl := None; driver := None |}.

(** A directory of audits, and one that cannot be read. *)
Definition audits_directory : Files :=
  {| dirname := "/lighthouse-core";
     path_join := fun a b => a +:+ "/audits";
     fs_readdirSync := fun d =>
       if bool_decide (d = "/lighthouse-core/audits")
       then inr ["audit.js"; "manifest.json"; "viewport.js"; "viewport.js.map";
                 ".js"; "README.md"; "js"]
       else inl (Error "ENOENT") |}.

Definition audits_missing : Files :=
  {| dirname := "/elsewhere";
     path_join := fun a b => a +:+ "/audits";
     fs_readdirSync := fun d =>
       if bool_decide (d = "/lighthouse-core/audits")
       then inr ["audit.js"]
       else inl (Error "ENOENT") |}.

End Demo.

(** * Properties *)

Section Properties.

Context {Driver Pass Artifacts Payload AggregationSpec AggregationResult : Type}.
Variable env :
  Collaborators Driver Pass Artifacts Payload AggregationSpec AggregationResult.

Local Abbreviation Opts := (Opts Driver Pass Artifacts Payload AggregationSpec).
Local Abbreviation Config := (Config Pass Artifacts Payload AggregationSpec).
Local Abbreviation Audit := (Audit Artifacts Payload).
Local Abbreviation AuditResult := (AuditResult Payload).
Local Abbreviation event := (event Driver Pass Artifacts Payload AggregationSpec).
Local Abbreviation promise := (@promise Driver Pass Artifacts Payload AggregationSpec).
Local Abbreviation run_audits :=
  (@run_audits Driver Pass Artifacts Payload AggregationSpec).
Local Abbreviation start_audits :=
  (@start_audits Driver Pass Artifacts Payload AggregationSpec).
Local Abbreviation https_warnings :=
  (@https_warnings Driver Pass Artifacts Payload AggregationSpec).

Implicit Types (dr : Driver) (opts o : Opts) (c : Config) (d : Audit)
  (l : list Audit) (a : Artifacts) (rs : list AuditResult) (e : error)
  (f : Flags) (evs tr : list event).

(** ** Mode selection *)

Lemma classify_gather c :
  validPassesAndAudits c = true →
  ∃ ps l, passes c = Some ps ∧ audits c = Some l ∧ classify c = GatherAndAudit ps l.
Proof.
  unfold validPassesAndAudits, classify.
  destruct (passes c) as [ps|], (audits c) as [l|]; simpl; try discriminate.
  intros _. by exists ps, l.
Qed.




Lemma classify_not_gather c :
  validPassesAndAudits c = false →
  match classify c with GatherAndAudit _ _ => False | _ => True end.
Proof.
  unfold validPassesAndAudits, classify.
  destruct (passes c), (audits c), (artifacts c), (auditResults c);
    simpl; try discriminate; done.
Qed.

(** ** Promises *)

Lemma then_resolve {A B} (v : A) (k : A → promise B) : then_ (resolve v) k = k v.
Proof. unfold then_, resolve. by destruct (k v). Qed.

Lemma then_prefix {A B} (pre tr : list event) (s : settled A) (k : A → promise B) :
  then_ (pre ++ tr, s) k =
  (pre ++ fst (then_ (tr, s) k), snd (then_ (tr, s) k)).
Proof.
  unfold then_. destruct s as [v|e]; [|done].
  destruct (k v); simpl. by rewrite app_assoc.
Qed.

Lemma then_fulfilled {A B} (tr : list event) (v : A) (k : A → promise B) :
  then_ (tr, Fulfilled v) k = (tr ++ fst (k v), snd (k v)).
Proof. unfold then_. by destruct (k v). Qed.

Lemma then_rejected {A B} (tr : list event) e (k : A → promise B) :
  then_ (tr, Rejected e) k = (tr, Rejected e).
Proof. done. Qed.

Lemma aggregate_prefix o c (pre tr : list event) (s : settled (list AuditResult)) :
  aggregate env o c (pre ++ tr, s) =
  (pre ++ fst (aggregate env o c (tr, s)), snd (aggregate env o c (tr, s))).
Proof.
  unfold aggregate. destruct (aggregations c) as [spec|].
  - rewrite (then_prefix pre tr).
    destruct (then_ (tr, s) _) as [tr1 s1]. apply then_prefix.
  - apply then_prefix.
Qed.

Lemma aggregate_cons o c (ev : event) tr (s : settled (list AuditResult)) :
  aggregate env o c (ev :: tr, s) =
  (ev :: (aggregate env o c (tr, s)).1, (aggregate env o c (tr, s)).2).
Proof. apply (aggregate_prefix o c [ev]). Qed.

Lemma aggregate_rejected o c (tr : list event) e :
  aggregate env o c (tr, Rejected e) = (tr, Rejected e).
Proof. unfold aggregate. by destruct (aggregations c). Qed.

Lemma aggregate_none o c (tr : list event) rs :
  aggregations c = None →
  aggregate env o c (tr, Fulfilled rs) = (tr, Fulfilled (Flat rs)).
Proof. unfold aggregate. intros ->. simpl. by rewrite app_nil_r. Qed.

Lemma aggregate_some o c (tr : list event) rs spec :
  aggregations c = Some spec →
  aggregate env o c (tr, Fulfilled rs) =
  (tr ++ [Aggregate spec rs],
   match adopt (Aggregator_aggregate env spec rs) with
   | Fulfilled aggs =>
       Fulfilled (Shaped {| report_initialUrl := initialUrl o;
                            report_url := url o;
                            report_audits := formatAudits rs;
                            report_aggregations := aggs |})
   | Rejected e => Rejected e
   end).
Proof.
  unfold aggregate. intros ->. simpl. unfold call.
  destruct (adopt _) as [aggs|e]; simpl; by rewrite ?app_nil_r.
Qed.

(** ** The audit fan-out *)

Lemma insert_by_time_perm (p : started Payload) ps : insert_by_time p ps ≡ₚ p :: ps.
Proof.
  induction ps as [|q ps IH]; simpl; [done|].
  destruct (started_at p <=? started_at q); [done|].
  rewrite IH. apply Permutation_swap.
Qed.

Lemma completion_order_perm (ps : list (started Payload)) : completion_order ps ≡ₚ ps.
Proof.
  induction ps as [|p ps IH]; simpl; [done|].
  unfold completion_order in *. simpl. by rewrite insert_by_time_perm, IH.
Qed.

(** What [start_audits] records mirrors the answers of the audits. *)
Lemma start_audits_none l : ∀ i a evs ps,
  start_audits i l a = (evs, ps, None) →
  Forall2 (λ d p, started_result p = adopt (audit d a)) l ps ∧
  (∀ d, d ∈ l → thrown_by (audit d a) = None) ∧
  List.filter is_audit evs = imap (λ j _, RunAudit (i + j) a) l.
Proof.
  induction l as [|d l IH]; intros i a evs ps Hs; simpl in Hs.
  - inversion Hs; subst. repeat split; [constructor|]. intros d Hd. inversion Hd.
  - destruct (audit d a) as [e|v|t s] eqn:Hd; [discriminate| |];
      destruct (start_audits (S i) l a) as [[evs' ps'] thrown'] eqn:Hrest;
      inversion Hs; subst; destruct (IH _ _ _ _ Hrest) as (HF & Hno & Hcalls);
      (split; [constructor; [by rewrite Hd|done]|]);
      (split; [intros d' [->|Hin]%elem_of_cons; [by rewrite Hd|by apply Hno]|]);
      simpl; rewrite Hcalls, Nat.add_0_r; f_equal;
      apply imap_ext; intros j x _; simpl; f_equal; lia.
Qed.

Lemma start_audits_some l : ∀ i a evs ps e,
  start_audits i l a = (evs, ps, Some e) → ∃ d, d ∈ l ∧ audit d a = Throws e.
Proof.
  induction l as [|d l IH]; intros i a evs ps e Hs; simpl in Hs; [discriminate|].
  destruct (audit d a) as [e'|v|t s] eqn:Hd.
  - inversion Hs; subst. exists d. split; [left|done].
  - destruct (start_audits (S i) l a) as [[evs' ps'] thrown'] eqn:Hrest.
    inversion Hs; subst. destruct (IH _ _ _ _ _ Hrest) as (d' & Hin & Hd').
    exists d'. split; [by right|done].
  - destruct (start_audits (S i) l a) as [[evs' ps'] thrown'] eqn:Hrest.
    inversion Hs; subst. destruct (IH _ _ _ _ _ Hrest) as (d' & Hin & Hd').
    exists d'. split; [by right|done].
Qed.

(** Every promise the [map] created belongs to a configured audit. *)
Lemma start_audits_started l : ∀ i a evs ps thrown,
  start_audits i l a = (evs, ps, thrown) →
  ∀ p, p ∈ ps → ∃ d, d ∈ l ∧ started_result p = adopt (audit d a).
Proof.
  induction l as [|d l IH]; intros i a evs ps thrown Hs p Hp; simpl in Hs.
  - inversion Hs; subst. inversion Hp.
  - destruct (audit d a) as [e'|v|t s] eqn:Hd.
    + inversion Hs; subst. inversion Hp.
    + destruct (start_audits (S i) l a) as [[evs' ps'] thrown'] eqn:Hrest.
      inversion Hs; subst. apply elem_of_cons in Hp as [->|Hp].
      * exists d. split; [left|]. by rewrite Hd.
      * destruct (IH _ _ _ _ _ Hrest p Hp) as (d' & Hin & Hd').
        exists d'. split; [by right|done].
    + destruct (start_audits (S i) l a) as [[evs' ps'] thrown'] eqn:Hrest.
      inversion Hs; subst. apply elem_of_cons in Hp as [->|Hp].
      * exists d. split; [left|]. by rewrite Hd.
      * destruct (IH _ _ _ _ _ Hrest p Hp) as (d' & Hin & Hd').
        exists d'. split; [by right|done].
Qed.

(** The only calls the fan-out makes are audits, all on the artifacts
    it was given. *)
Lemma start_audits_events l : ∀ i a,
  Forall (audit_phase_event a) (start_audits i l a).1.1.
Proof.
  induction l as [|d l IH]; intros i a; simpl; [constructor|].
  destruct (audit d a) as [e'|v|t s].
  - by repeat constructor.
  - specialize (IH (S i) a).
    destruct (start_audits (S i) l a) as [[evs' ps'] thrown']. by repeat constructor.
  - specialize (IH (S i) a).
    destruct (start_audits (S i) l a) as [[evs' ps'] thrown']. by repeat constructor.
Qed.

Lemma status_ends_events a (ps : list (started Payload)) :
  Forall (audit_phase_event a) (status_ends ps : list event).
Proof.
  unfold status_ends. apply Forall_forall. intros ev Hev.
  apply list_elem_of_omap in Hev as (p & _ & Hp).
  destruct (started_result p); by inversion Hp.
Qed.

Lemma run_audits_events l a : Forall (audit_phase_event a) (run_audits l a).1.
Proof.
  unfold run_audits. pose proof (start_audits_events l 0 a) as H.
  destruct (start_audits 0 l a) as [[evs ps] thrown]. simpl in *.
  apply Forall_app. split; [done|apply status_ends_events].
Qed.

Lemma status_ends_no_audit (ps : list (started Payload)) :
  List.filter is_audit (status_ends ps : list event) = [].
Proof.
  unfold status_ends. induction (completion_order ps) as [|p qs IH]; [done|].
  simpl. destruct (started_result p); simpl; done.
Qed.

(** [Promise.all] fulfils exactly when every promise fulfils, with the
    values in the order of the array. *)
Lemma promise_all_fulfilled (ps : list (started Payload)) rs :
  promise_all ps = Fulfilled rs ↔
  Forall2 (λ p r, started_result p = Fulfilled r) ps rs.
Proof.
  unfold promise_all. split.
  - destruct (omap rejection_of (completion_order ps)) as [|e rest] eqn:Hrej;
      [|discriminate].
    intros [= <-].
    assert (omap rejection_of ps = []) as Hnone.
    { apply Permutation_nil_r. rewrite <- Hrej. by rewrite completion_order_perm. }
    clear Hrej. induction ps as [|p ps IH]; csimpl; [constructor|].
    csimpl in Hnone. unfold rejection_of at 1 in Hnone. unfold value_of at 1.
    destruct (started_result p) eqn:Hp; [|discriminate].
    constructor; [done|by apply IH].
  - intros HF.
    assert (omap rejection_of ps = [] ∧ omap value_of ps = rs) as [Hnone <-].
    { induction HF as [|p r ps rs Hp _ [IH1 IH2]]; [done|].
      csimpl.
      assert (rejection_of p = None) as -> by (unfold rejection_of; by rewrite Hp).
      assert (value_of p = Some r) as -> by (unfold value_of; by rewrite Hp).
      by rewrite IH1, IH2. }
    assert (omap rejection_of (completion_order ps) = []) as ->; [|done].
    apply Permutation_nil_r. by rewrite completion_order_perm, Hnone.
Qed.

Lemma promise_all_rejected (ps : list (started Payload)) e :
  promise_all ps = Rejected e → ∃ p, p ∈ ps ∧ started_result p = Rejected e.
Proof.
  unfold promise_all.
  destruct (omap rejection_of (completion_order ps)) as [|e' rest] eqn:Hrej;
    [discriminate|].
  intros [= <-].
  assert (e' ∈ omap rejection_of (completion_order ps)) as Hin
    by (rewrite Hrej; left).
  rewrite completion_order_perm in Hin.
  apply list_elem_of_omap in Hin as (p & Hp & Hr). exists p. split; [done|].
  unfold rejection_of in Hr. destruct (started_result p); by inversion Hr.
Qed.

Lemma run_audits_fulfilled l a rs :
  (run_audits l a).2 = Fulfilled rs ↔ Forall2 (audit_yields a) l rs.
Proof.
  unfold run_audits, audit_yields.
  destruct (start_audits 0 l a) as [[evs ps] [e|]] eqn:Hs; simpl.
  - split; [discriminate|]. intros HF.
    destruct (start_audits_some _ _ _ _ _ _ Hs) as (d & Hin & Hd).
    apply list_elem_of_lookup in Hin as [i Hi].
    destruct (Forall2_lookup_l _ _ _ _ _ HF Hi) as (r & _ & Hr).
    rewrite Hd in Hr. discriminate.
  - destruct (start_audits_none _ _ _ _ _ Hs) as (HF & _ & _).
    rewrite promise_all_fulfilled. split; intros H.
    + clear Hs. revert rs H. induction HF as [|d p l ps Hdp _ IH]; intros rs H;
        inversion H; subst; constructor; [congruence|by apply IH].
    + clear Hs. revert rs H. induction HF as [|d p l ps Hdp _ IH]; intros rs H;
        inversion H; subst; constructor; [congruence|by apply IH].
Qed.

Lemma run_audits_rejected l a e :
  (run_audits l a).2 = Rejected e → ∃ d, d ∈ l ∧ audit_fails a d e.
Proof.
  unfold run_audits, audit_fails.
  destruct (start_audits 0 l a) as [[evs ps] [e'|]] eqn:Hs; simpl.
  - intros [= <-]. destruct (start_audits_some _ _ _ _ _ _ Hs) as (d & Hin & Hd).
    exists d. split; [done|]. by rewrite Hd.
  - intros (p & Hp & Hr)%promise_all_rejected.
    destruct (start_audits_started _ _ _ _ _ _ Hs p Hp) as (d & Hin & Hd).
    exists d. split; [done|]. congruence.
Qed.

(** One failing audit is enough for the batch to reject. *)
Lemma run_audits_fails l a d e :
  d ∈ l → audit_fails a d e → ∃ e', (run_audits l a).2 = Rejected e'.
Proof.
  intros Hin Hd. destruct (run_audits l a).2 as [rs|e'] eqn:Hr; [|by exists e'].
  apply run_audits_fulfilled in Hr.
  apply list_elem_of_lookup in Hin as [i Hi].
  destruct (Forall2_lookup_l _ _ _ _ _ Hr Hi) as (r & _ & Hy).
  unfold audit_fails, audit_yields in *. congruence.
Qed.

Lemma run_audits_calls l a rs :
  Forall2 (audit_yields a) l rs →
  List.filter is_audit (run_audits l a).1 = imap (λ j _, RunAudit j a) l.
Proof.
  intros HF. apply run_audits_fulfilled in HF. unfold run_audits in *.
  destruct (start_audits 0 l a) as [[evs ps] [e|]] eqn:Hs; simpl in *; [discriminate|].
  destruct (start_audits_none _ _ _ _ _ Hs) as (_ & _ & Hcalls).
  by rewrite List.filter_app, status_ends_no_audit, app_nil_r, Hcalls.
Qed.

(** ** The aggregation step *)

Lemma aggregate_events o c tr (s : settled (list AuditResult)) :
  ∃ extra, (aggregate env o c (tr, s)).1 = tr ++ extra ∧ Forall final_event extra.
Proof.
  destruct s as [rs|e].
  - destruct (aggregations c) as [spec|] eqn:Hagg.
    + rewrite (aggregate_some _ _ _ _ _ Hagg). exists [Aggregate spec rs].
      split; [done|]. by repeat constructor.
    + rewrite (aggregate_none _ _ _ _ Hagg). exists []. by rewrite app_nil_r.
  - rewrite aggregate_rejected. exists []. by rewrite app_nil_r.
Qed.

Lemma filter_nil_Forall (P : event → bool) tr :
  Forall (λ ev, P ev = false) tr → List.filter P tr = [].
Proof.
  induction 1 as [|ev tr Hev _ IH]; simpl; [done|]. by rewrite Hev.
Qed.

Lemma final_later tr : Forall final_event tr → Forall later_event tr.
Proof. intros H. eapply Forall_impl; [exact H|]. intros ev (? & ? & _). by split. Qed.

Lemma audit_phase_later a tr : Forall (audit_phase_event a) tr → Forall later_event tr.
Proof. intros H. eapply Forall_impl; [exact H|]. by intros []. Qed.

Lemma persistence_calls_later f o a : Forall later_event (persistence_calls env f o a).
Proof.
  unfold persistence_calls.
  destruct (saveArtifacts f), (saveAssets f); simpl;
    try destruct (thrown_by _); by repeat constructor.
Qed.

Lemma persistence_calls_no_audit f o a :
  List.filter is_audit (persistence_calls env f o a) = [].
Proof.
  unfold persistence_calls.
  destruct (saveArtifacts f), (saveAssets f); simpl;
    try destruct (thrown_by _); done.
Qed.

(** ** Lines 62-87 *)

Lemma persist_and_audit_no_flags o c lg l (p : promise Artifacts) :
  flags o = None →
  persist_and_audit env o c lg l p =
  {| final_opts := o; logged := lg;
     result := Threw (TypeError "Cannot read property 'saveArtifacts' of undefined");
     scheduled := p.1 |}.
Proof. unfold persist_and_audit. by intros ->. Qed.

Lemma persist_and_audit_rejected o c lg l tr e f :
  flags o = Some f →
  persist_and_audit env o c lg l (tr, Rejected e) =
  {| final_opts := o; logged := lg;
     result := Returned (Rejected e); scheduled := tr |}.
Proof.
  unfold persist_and_audit, aggregate_and_return. intros ->.
  destruct (saveArtifacts f), (saveAssets f); simpl;
    by rewrite aggregate_rejected.
Qed.

(** Once the artifacts are there: the flagged persistence calls, then,
    unless one of them threw, the audits on the same artifacts. *)
Lemma persist_and_audit_fulfilled o c lg l tr a f :
  flags o = Some f →
  persist_and_audit env o c lg l (tr, Fulfilled a) =
  {| final_opts := o; logged := lg;
     result := Returned
       match persistence_throws env f o a with
       | Some e => Rejected e
       | None => (aggregate env o c (run_audits l a)).2
       end;
     scheduled := tr ++ persistence_calls env f o a ++
       match persistence_throws env f o a with
       | Some _ => []
       | None => (aggregate env o c (run_audits l a)).1
       end |}.
Proof.
  unfold persist_and_audit, aggregate_and_return, persistence_throws,
    persistence_calls, call_and_return. intros ->.
  destruct (run_audits l a) as [tra sa] eqn:Hra.
  destruct (saveArtifacts f), (saveAssets f); simpl;
    try destruct (assetSaver_saveArtifacts env a); simpl;
    try destruct (assetSaver_saveAssets env o a); simpl;
    rewrite ?aggregate_rejected, ?Hra; simpl;
    rewrite ?app_nil_r, <- ?app_assoc; simpl;
    rewrite ?aggregate_prefix; simpl;
    rewrite ?aggregate_cons; simpl; done.
Qed.

Lemma persist_and_audit_trace o c lg l (p : promise Artifacts) :
  ∃ rest, scheduled (persist_and_audit env o c lg l p) = p.1 ++ rest ∧
          Forall later_event rest.
Proof.
  destruct (flags o) as [f|] eqn:Hf.
  - destruct p as [tr [a|e]].
    + rewrite (persist_and_audit_fulfilled _ _ _ _ _ _ _ Hf). simpl.
      eexists. split; [done|]. apply Forall_app. split.
      { apply persistence_calls_later. }
      destruct (persistence_throws env f o a); [constructor|].
      destruct (run_audits l a) as [tra sa] eqn:Hra.
      destruct (aggregate_events o c tra sa) as (extra & -> & Hextra).
      apply Forall_app. split; [|by apply final_later].
      apply (audit_phase_later a). pose proof (run_audits_events l a) as H.
      by rewrite Hra in H.
    + rewrite (persist_and_audit_rejected _ _ _ _ _ _ _ Hf). simpl.
      exists []. by rewrite app_nil_r.
  - rewrite (persist_and_audit_no_flags _ _ _ _ _ Hf). simpl.
    exists []. by rewrite app_nil_r.
Qed.

(** ** [run], branch by branch *)

Lemma run_no_scheme dr opts :
  protocol (url_parse env (url opts)) = None →
  run env dr opts =
  {| final_opts := normalized env opts; logged := [];
     result := Threw (TypeError "Cannot read property 'includes' of null");
     scheduled := [] |}.
Proof. intros Hp. unfold run. cbn [url set_initialUrl]. by rewrite Hp. Qed.

Lemma run_scheme dr opts proto :
  protocol (url_parse env (url opts)) = Some proto →
  run env dr opts =
  match classify (config opts) with
  | GatherAndAudit ps l =>
      persist_and_audit env (set_driver (normalized env opts) dr) (config opts)
        (url_warnings env opts proto) l
        ([Gather ps (set_driver (normalized env opts) dr)],
         adopt (GatherRunner_run env ps (set_driver (normalized env opts) dr)))
  | ArtifactsAndAudit a l =>
      persist_and_audit env (normalized env opts) (config opts)
        (url_warnings env opts proto) l ([], Fulfilled a)
  | ResultsOnly rs =>
      aggregate_and_return env (normalized env opts) (config opts)
        (url_warnings env opts proto) ([], Fulfilled rs)
  | NoMode =>
      {| final_opts := normalized env opts; logged := url_warnings env opts proto;
         result := Threw config_error; scheduled := [] |}
  end.
Proof.
  intros Hp. unfold run. cbn [url set_initialUrl]. rewrite Hp.
  unfold url_warnings, normalized. cbn zeta.
  destruct (classify (config opts)); by rewrite ?then_resolve.
Qed.

Lemma url_warnings_only_warn opts proto :
  List.filter is_warn (url_warnings env opts proto) = url_warnings env opts proto ∧
  Forall (λ ev, is_collaborator ev = false) (url_warnings env opts proto).
Proof.
  unfold url_warnings. destruct (_ || _); simpl; by repeat constructor.
Qed.

Lemma final_opts_persist_and_audit o c lg l (p : promise Artifacts) :
  final_opts (persist_and_audit env o c lg l p) = o.
Proof. unfold persist_and_audit. by destruct (flags o). Qed.

Lemma logged_persist_and_audit o c lg l (p : promise Artifacts) :
  logged (persist_and_audit env o c lg l p) = lg.
Proof. unfold persist_and_audit. by destruct (flags o). Qed.

(** The [opts] object after the call. *)
Lemma final_opts_run dr opts :
  final_opts (run env dr opts) =
  match protocol (url_parse env (url opts)), classify (config opts) with
  | Some _, GatherAndAudit _ _ => set_driver (normalized env opts) dr
  | _, _ => normalized env opts
  end.
Proof.
  destruct (protocol (url_parse env (url opts))) as [proto|] eqn:Hp.
  - rewrite (run_scheme _ _ _ Hp). simpl.
    destruct (classify (config opts)); by rewrite ?final_opts_persist_and_audit.
  - by rewrite (run_no_scheme _ _ Hp).
Qed.

Lemma logged_run dr opts :
  logged (run env dr opts) =
  match protocol (url_parse env (url opts)) with
  | Some proto => url_warnings env opts proto
  | None => []
  end.
Proof.
  destruct (protocol (url_parse env (url opts))) as [proto|] eqn:Hp.
  - rewrite (run_scheme _ _ _ Hp). simpl.
    destruct (classify (config opts)); by rewrite ?logged_persist_and_audit.
  - by rewrite (run_no_scheme _ _ Hp).
Qed.

Lemma filter_later (P : event → bool) tr :
  (∀ ev, later_event ev → P ev = false) → Forall later_event tr →
  List.filter P tr = [].
Proof.
  intros HP H. apply filter_nil_Forall. eapply Forall_impl; [exact H|]. done.
Qed.

(** Everything scheduled is past the first callback, except the call
    of the gatherer in Mode A. *)
Lemma scheduled_run dr opts :
  ∃ rest, Forall later_event rest ∧
    scheduled (run env dr opts) =
    match protocol (url_parse env (url opts)), classify (config opts) with
    | Some _, GatherAndAudit ps _ => Gather ps (final_opts (run env dr opts)) :: rest
    | _, _ => rest
    end.
Proof.
  rewrite final_opts_run.
  destruct (protocol (url_parse env (url opts))) as [proto|] eqn:Hp.
  - rewrite (run_scheme _ _ _ Hp). simpl.
    destruct (classify (config opts)) as [ps l|a l|rs|].
    + destruct (persist_and_audit_trace (set_driver (normalized env opts) dr)
        (config opts) (url_warnings env opts proto) l
        ([Gather ps (set_driver (normalized env opts) dr)],
         adopt (GatherRunner_run env ps (set_driver (normalized env opts) dr))))
        as (rest & -> & Hrest).
      by exists rest.
    + destruct (persist_and_audit_trace (normalized env opts)
        (config opts) (url_warnings env opts proto) l ([], Fulfilled a))
        as (rest & -> & Hrest).
      by exists rest.
    + unfold aggregate_and_return. simpl.
      destruct (aggregate_events (normalized env opts) (config opts) [] (Fulfilled rs))
        as (extra & -> & Hextra).
      exists extra. split; [by apply final_later|done].
    + by exists [].
  - rewrite (run_no_scheme _ _ Hp). by exists [].
Qed.

Lemma aggregate_fulfilled o c tr (s : settled (list AuditResult)) v :
  (aggregate env o c (tr, s)).2 = Fulfilled v →
  ∃ rs, s = Fulfilled rs ∧
    match aggregations c with
    | None => v = Flat rs
    | Some spec => ∃ aggs,
        adopt (Aggregator_aggregate env spec rs) = Fulfilled aggs ∧
        v = Shaped {| report_initialUrl := initialUrl o; report_url := url o;
                      report_audits := formatAudits rs;
                      report_aggregations := aggs |}
    end.
Proof.
  destruct s as [rs|e]; [|by rewrite aggregate_rejected].
  intros H. exists rs. split; [done|].
  destruct (aggregations c) as [spec|] eqn:Hagg.
  - rewrite (aggregate_some _ _ _ _ _ Hagg) in H. simpl in H.
    destruct (adopt _) as [aggs|e]; [|discriminate].
    exists aggs. split; [done|]. by inversion H.
  - rewrite (aggregate_none _ _ _ _ Hagg) in H. by inversion H.
Qed.

Lemma normalized_fields opts :
  url (normalized env opts) = url_format env (url_parse env (url opts)) ∧
  initialUrl (normalized env opts) = Some (url opts) ∧
  config (normalized env opts) = config opts ∧
  flags (normalized env opts) = flags opts ∧
  driver (normalized env opts) = driver opts.
Proof. done. Qed.

(** How a call in Mode A or B goes on once the artifacts are there. *)
Lemma run_reaches_audits dr opts f l a :
  has_scheme env opts → flags opts = Some f →
  yields_artifacts env (final_opts (run env dr opts)) (config opts) l a →
  result (run env dr opts) =
    Returned match persistence_throws env f (final_opts (run env dr opts)) a with
             | Some e => Rejected e
             | None => (aggregate env (final_opts (run env dr opts)) (config opts)
                          (run_audits l a)).2
             end ∧
  scheduled (run env dr opts) =
    match classify (config opts) with
    | GatherAndAudit ps _ => [Gather ps (final_opts (run env dr opts))]
    | _ => []
    end ++ persistence_calls env f (final_opts (run env dr opts)) a ++
    match persistence_throws env f (final_opts (run env dr opts)) a with
    | Some _ => []
    | None => (aggregate env (final_opts (run env dr opts)) (config opts)
                 (run_audits l a)).1
    end.
Proof.
  intros [proto Hp] Hf. rewrite final_opts_run, Hp, (run_scheme _ _ _ Hp).
  unfold yields_artifacts.
  destruct (classify (config opts)) as [ps l'|a' l'|rs|]; [| |done..].
  - intros [-> Hg]. rewrite Hg.
    by rewrite (persist_and_audit_fulfilled _ _ _ _ _ _ f).
  - intros [-> ->].
    by rewrite (persist_and_audit_fulfilled _ _ _ _ _ _ f).
Qed.

(** A call returns a promise that fulfils exactly when the chain gets
    as far as an audit-result collection and the aggregator, if one is
    configured, fulfils. *)
Lemma run_fulfilled dr opts v :
  result (run env dr opts) = Returned (Fulfilled v) ↔
  ∃ rs, results_available env dr opts rs ∧
    match aggregations (config opts) with
    | None => v = Flat rs
    | Some spec => ∃ aggs,
        adopt (Aggregator_aggregate env spec rs) = Fulfilled aggs ∧
        v = Shaped (report_of env opts rs aggs)
    end.
Proof.
  unfold results_available, has_scheme.
  destruct (protocol (url_parse env (url opts))) as [proto|] eqn:Hp;
    [|rewrite (run_no_scheme _ _ Hp); split;
      [discriminate|by intros (? & ([? ?] & _) & _)]].
  assert (has_scheme env opts) as Hs by (unfold has_scheme; by rewrite Hp).
  assert (∀ o rs, url o = url (normalized env opts) →
                  initialUrl o = initialUrl (normalized env opts) →
    ((aggregate env o (config opts) ([], Fulfilled rs)).2 = Fulfilled v ↔
     match aggregations (config opts) with
     | None => v = Flat rs
     | Some spec => ∃ aggs,
         adopt (Aggregator_aggregate env spec rs) = Fulfilled aggs ∧
         v = Shaped (report_of env opts rs aggs)
     end)) as Hagg.
  { intros o rs Hu Hi. unfold report_of.
    destruct (aggregations (config opts)) as [spec|] eqn:Ha.
    - rewrite (aggregate_some _ _ _ _ _ Ha). simpl. rewrite Hu, Hi. simpl.
      destruct (adopt _) as [aggs|e]; split.
      + intros [= <-]. by exists aggs.
      + by intros (aggs' & [= <-] & ->).
      + discriminate.
      + by intros (? & ? & _).
    - rewrite (aggregate_none _ _ _ _ Ha). simpl. split; [by intros [= <-]|by intros ->]. }
  assert (∀ o a l, url o = url (normalized env opts) →
                   initialUrl o = initialUrl (normalized env opts) →
    ((aggregate env o (config opts) (run_audits l a)).2 = Fulfilled v ↔
     ∃ rs, Forall2 (audit_yields a) l rs ∧
     match aggregations (config opts) with
     | None => v = Flat rs
     | Some spec => ∃ aggs,
         adopt (Aggregator_aggregate env spec rs) = Fulfilled aggs ∧
         v = Shaped (report_of env opts rs aggs)
     end)) as Haud.
  { intros o a l Hu Hi. destruct (run_audits l a) as [tr s] eqn:Hra.
    assert (∀ rs, s = Fulfilled rs ↔ Forall2 (audit_yields a) l rs) as Hiff.
    { intros rs. rewrite <- run_audits_fulfilled. by rewrite Hra. }
    rewrite <- (app_nil_r tr), aggregate_prefix. simpl.
    destruct s as [rs|e].
    - rewrite (Hagg o rs Hu Hi). split.
      + intros H. exists rs. split; [by apply Hiff|done].
      + intros (rs' & Hy & H). apply Hiff in Hy. by inversion Hy; subst.
    - rewrite aggregate_rejected. simpl. split; [discriminate|].
      intros (rs' & Hy & _). apply Hiff in Hy. discriminate. }
  destruct (classify (config opts)) as [ps l|a l|rs|] eqn:Hm.
  - destruct (flags opts) as [f|] eqn:Hf.
    + destruct (adopt (GatherRunner_run env ps (final_opts (run env dr opts))))
        as [a|e] eqn:Hg.
      * assert (yields_artifacts env (final_opts (run env dr opts))
                  (config opts) l a) as Hy by (unfold yields_artifacts; by rewrite Hm).
        destruct (run_reaches_audits _ _ _ _ _ Hs Hf Hy) as [-> _].
        unfold yields_artifacts. rewrite Hm, Hg.
        destruct (persistence_throws env f _ a) as [e|] eqn:Ht.
        -- split; [discriminate|].
           intros (rs & (_ & f' & a' & [= <-] & [_ [= <-]] & Ht' & _) & _).
           rewrite Ht in Ht'. discriminate.
        -- split.
           ++ intros [= H]. apply Haud in H as (rs & Hrs & Hv);
                [|by rewrite final_opts_run, Hp, Hm..].
              exists rs. split; [|done]. split; [done|]. by exists f, a.
           ++ intros (rs & (_ & f' & a' & [= <-] & [_ [= <-]] & _ & Hrs) & Hv).
              f_equal. apply Haud; [by rewrite final_opts_run, Hp, Hm..|].
              by exists rs.
      * split.
        -- rewrite final_opts_run, Hp, Hm in Hg.
           rewrite (run_scheme _ _ _ Hp), Hm, Hg.
           rewrite (persist_and_audit_rejected _ _ _ _ _ _ f); [discriminate|done].
        -- intros (rs & (_ & f' & a' & _ & Hy & _) & _).
           unfold yields_artifacts in Hy. rewrite Hm, Hg in Hy. by destruct Hy.
    + rewrite (run_scheme _ _ _ Hp), Hm.
      rewrite persist_and_audit_no_flags; [|done]. split; [discriminate|].
      by intros (rs & (_ & f' & a' & ? & _) & _).
  - destruct (flags opts) as [f|] eqn:Hf.
    + assert (yields_artifacts env (final_opts (run env dr opts))
                (config opts) l a) as Hy by (unfold yields_artifacts; by rewrite Hm).
      destruct (run_reaches_audits _ _ _ _ _ Hs Hf Hy) as [-> _].
      unfold yields_artifacts. rewrite Hm.
      destruct (persistence_throws env f _ a) as [e|] eqn:Ht.
      * split; [discriminate|].
        intros (rs & (_ & f' & a' & [= <-] & [_ <-] & Ht' & _) & _).
        rewrite Ht in Ht'. discriminate.
      * split.
        -- intros [= H]. apply Haud in H as (rs & Hrs & Hv);
             [|by rewrite final_opts_run, Hp, Hm..].
           exists rs. split; [|done]. split; [done|]. by exists f, a.
        -- intros (rs & (_ & f' & a' & [= <-] & [_ <-] & _ & Hrs) & Hv).
           f_equal. apply Haud; [by rewrite final_opts_run, Hp, Hm..|].
           by exists rs.
    + rewrite (run_scheme _ _ _ Hp), Hm.
      rewrite persist_and_audit_no_flags; [|done]. split; [discriminate|].
      by intros (rs & (_ & f' & a' & ? & _) & _).
  - rewrite (run_scheme _ _ _ Hp), Hm. unfold aggregate_and_return. simpl.
    split.
    + intros [= H]. apply Hagg in H; [|done..]. exists rs. by repeat split.
    + intros (rs' & (_ & ->) & H). f_equal. by apply Hagg.
  - rewrite (run_scheme _ _ _ Hp), Hm. simpl. split; [discriminate|].
    by intros (? & (_ & ?) & _).
Qed.

Lemma logged_only_warn dr opts :
  List.filter is_warn (logged (run env dr opts)) = logged (run env dr opts) ∧
  Forall (λ ev, is_collaborator ev = false) (logged (run env dr opts)).
Proof.
  rewrite logged_run. destruct (protocol _); [|done].
  apply url_warnings_only_warn.
Qed.

Lemma logged_no_call (P : event → bool) dr opts :
  (∀ ev, is_collaborator ev = false → P ev = false) →
  List.filter P (logged (run env dr opts)) = [].
Proof.
  intros HP. apply filter_nil_Forall.
  eapply Forall_impl; [apply logged_only_warn|]. done.
Qed.


Lemma not_collaborator_audit (ev : event) :
  is_collaborator ev = false → is_audit ev = false.
Proof. by destruct ev. Qed.

Lemma not_collaborator_persist (ev : event) :
  is_collaborator ev = false → is_persist ev = false.
Proof. by destruct ev. Qed.

Lemma not_collaborator_aggregate (ev : event) :
  is_collaborator ev = false → is_aggregate ev = false.
Proof. by destruct ev. Qed.


(** The trace of a Mode C call. *)
Lemma run_results_only dr opts proto rs :
  protocol (url_parse env (url opts)) = Some proto →
  classify (config opts) = ResultsOnly rs →
  result (run env dr opts) =
    Returned (aggregate env (normalized env opts) (config opts) ([], Fulfilled rs)).2 ∧
  scheduled (run env dr opts) =
    (aggregate env (normalized env opts) (config opts) ([], Fulfilled rs)).1.
Proof. intros Hp Hm. by rewrite (run_scheme _ _ _ Hp), Hm. Qed.


(** ** The [audits] mapping *)

Lemma formatAudits_snoc rs (r : AuditResult) :
  formatAudits (rs ++ [r]) =
  if bool_decide (name r = "__proto__") then formatAudits rs
  else <[name r := r]> (formatAudits rs).
Proof. unfold formatAudits. by rewrite foldl_app. Qed.

Lemma formatAudits_snoc_key rs (r : AuditResult) :
  name r ≠ "__proto__" →
  formatAudits (rs ++ [r]) = <[name r := r]> (formatAudits rs).
Proof. intros H. by rewrite formatAudits_snoc, bool_decide_eq_false_2. Qed.

Lemma formatAudits_snoc_proto rs (r : AuditResult) :
  name r = "__proto__" → formatAudits (rs ++ [r]) = formatAudits rs.
Proof. intros H. by rewrite formatAudits_snoc, bool_decide_eq_true_2. Qed.

(** Every entry sits under the [name] of its value, the value is one of
    the results, and the key is never [__proto__]. *)
Lemma formatAudits_lookup rs k (v : AuditResult) :
  formatAudits rs !! k = Some v → name v = k ∧ v ∈ rs ∧ k ≠ "__proto__".
Proof.
  induction rs as [|r rs IH] using rev_ind; [done|].
  destruct (decide (name r = "__proto__")) as [Hp|Hp].
  - rewrite (formatAudits_snoc_proto _ _ Hp). intros (? & ? & ?)%IH.
    repeat split; [done| |done]. apply elem_of_app. by left.
  - rewrite (formatAudits_snoc_key _ _ Hp).
    destruct (decide (name r = k)) as [<-|Hne].
    + rewrite lookup_insert_eq. intros [= <-]. repeat split; [|done].
      apply elem_of_app. right. left.
    + rewrite lookup_insert_ne; [|done]. intros (? & ? & ?)%IH.
      repeat split; [done| |done]. apply elem_of_app. by left.
Qed.

Lemma formatAudits_is_Some rs (v : AuditResult) :
  v ∈ rs → name v ≠ "__proto__" → is_Some (formatAudits rs !! name v).
Proof.
  induction rs as [|r rs IH] using rev_ind; [by intros ?%elem_of_nil|].
  intros Hin Hv. destruct (decide (name r = "__proto__")) as [Hp|Hp].
  - rewrite (formatAudits_snoc_proto _ _ Hp).
    apply elem_of_app in Hin as [Hin|Hin%list_elem_of_singleton]; [by apply IH|].
    by subst.
  - rewrite (formatAudits_snoc_key _ _ Hp).
    destruct (decide (name r = name v)) as [->|Hne].
    + rewrite lookup_insert_eq. eauto.
    + rewrite lookup_insert_ne; [|done].
      apply elem_of_app in Hin as [Hin|Hin%list_elem_of_singleton]; [by apply IH|].
      by subst.
Qed.

(** The last result of a name is the one kept. *)
Lemma formatAudits_last rs1 (r : AuditResult) rs2 :
  name r ≠ "__proto__" →
  (∀ r', r' ∈ rs2 → name r' ≠ name r) →
  formatAudits (rs1 ++ r :: rs2) !! name r = Some r.
Proof.
  intros Hr. induction rs2 as [|x rs2 IH] using rev_ind; intros Hlater.
  - rewrite (formatAudits_snoc_key rs1 r Hr). apply lookup_insert_eq.
  - rewrite app_comm_cons, app_assoc, formatAudits_snoc.
    assert (formatAudits (rs1 ++ r :: rs2) !! name r = Some r) as Hrec
      by (apply IH; intros r' Hr'; apply Hlater, elem_of_app; by left).
    destruct (bool_decide _); [done|].
    rewrite lookup_insert_ne; [done|].
    apply Hlater, elem_of_app. right. left.
Qed.

(** The name [__proto__] never gets an entry. *)
Lemma formatAudits_proto rs : formatAudits rs !! "__proto__" = None.
Proof.
  destruct (formatAudits rs !! "__proto__") as [v|] eqn:H; [|done].
  by apply formatAudits_lookup in H as (_ & _ & ?).
Qed.

Lemma formatAudits_size_le rs : size (formatAudits rs) ≤ length rs.
Proof.
  induction rs as [|x rs IH] using rev_ind; [done|].
  rewrite formatAudits_snoc, length_app. simpl.
  destruct (bool_decide _); [lia|].
  rewrite map_size_insert. destruct (formatAudits rs !! name x); simpl; lia.
Qed.

(** One entry per distinct name other than [__proto__]. *)
Lemma formatAudits_dom rs :
  dom (formatAudits rs) =
  (list_to_set (name <$> rs) ∖ {["__proto__"]} : gset string).
Proof.
  apply set_eq. intros k.
  rewrite elem_of_dom, elem_of_difference, elem_of_list_to_set,
    list_elem_of_fmap, not_elem_of_singleton. split.
  - intros [v (Hk & Hin & Hp)%formatAudits_lookup]. split; [by exists v|done].
  - intros [(v & -> & Hin) Hp]. by apply formatAudits_is_Some.
Qed.

Lemma formatAudits_size rs :
  size (formatAudits rs) =
  size (list_to_set (name <$> rs) ∖ {["__proto__"]} : gset string).
Proof. by rewrite <- formatAudits_dom, size_dom. Qed.

Lemma formatAudits_NoDup rs :
  NoDup (name <$> rs) →
  Forall (λ r : AuditResult, name r ≠ "__proto__") rs →
  size (formatAudits rs) = length rs ∧
  ∀ v : AuditResult, v ∈ rs → formatAudits rs !! name v = Some v.
Proof.
  induction rs as [|r rs IH] using rev_ind;
    [by split; [|intros ? ?%elem_of_nil]|].
  rewrite fmap_app. intros (Hnd & Hfresh & _)%NoDup_app.
  intros [Hall Hr]%Forall_app. apply Forall_inv in Hr.
  destruct (IH Hnd Hall) as [Hsize Hlook].
  assert (formatAudits rs !! name r = None) as Hnone.
  { destruct (formatAudits rs !! name r) as [v|] eqn:H; [|done].
    apply formatAudits_lookup in H as (Hn & Hin & _).
    exfalso. apply (Hfresh (name r)); [|left].
    apply list_elem_of_fmap. by exists v. }
  rewrite (formatAudits_snoc_key _ _ Hr). split.
  - rewrite map_size_insert_None; [|done]. rewrite length_app, Hsize. simpl. lia.
  - intros v [Hin|Hin%list_elem_of_singleton]%elem_of_app.
    + rewrite lookup_insert_ne; [by apply Hlook|].
      intros Heq. rewrite Heq, (Hlook _ Hin) in Hnone. discriminate.
    + subst. apply lookup_insert_eq.
Qed.

(** ** The trace of a call that reaches the audits *)

Lemma run_audits_filters l a :
  List.filter is_persist (run_audits l a).1 = [] ∧
  List.filter is_aggregate (run_audits l a).1 = [] ∧
  List.filter is_gather (run_audits l a).1 = [].
Proof.
  pose proof (run_audits_events l a) as H.
  repeat split; apply filter_nil_Forall; (eapply Forall_impl; [exact H|]);
    by intros [].
Qed.

Lemma persistence_calls_filters f o a :
  List.filter is_persist (persistence_calls env f o a) = persistence_calls env f o a ∧
  List.filter is_audit (persistence_calls env f o a) = [] ∧
  List.filter is_aggregate (persistence_calls env f o a) = [].
Proof.
  unfold persistence_calls.
  destruct (saveArtifacts f), (saveAssets f); simpl;
    try destruct (thrown_by _); done.
Qed.

Lemma filter_persist_trace dr opts f l a :
  has_scheme env opts → flags opts = Some f →
  yields_artifacts env (final_opts (run env dr opts)) (config opts) l a →
  List.filter is_persist (trace (run env dr opts)) =
  persistence_calls env f (final_opts (run env dr opts)) a.
Proof.
  intros Hs Hf Hy. destruct (run_reaches_audits _ _ _ _ _ Hs Hf Hy) as [_ Hsch].
  unfold trace. rewrite Hsch, !List.filter_app.
  rewrite (logged_no_call _ _ _ not_collaborator_persist).
  destruct (persistence_calls_filters f (final_opts (run env dr opts)) a) as (-> & _ & _).
  assert (List.filter is_persist
            match persistence_throws env f (final_opts (run env dr opts)) a with
            | Some _ => []
            | None => (aggregate env (final_opts (run env dr opts)) (config opts)
                         (run_audits l a)).1
            end = []) as ->.
  { destruct (persistence_throws _ _ _ _); [done|].
    destruct (run_audits_filters l a) as (Hp & _ & _).
    destruct (run_audits l a) as [tr s].
    destruct (aggregate_events (final_opts (run env dr opts)) (config opts) tr s)
      as (extra & -> & Hextra).
    rewrite List.filter_app. simpl in Hp. rewrite Hp. simpl.
    apply filter_nil_Forall. eapply Forall_impl; [exact Hextra|].
    by intros ev (_ & _ & ? & _). }
  rewrite app_nil_r. by destruct (classify (config opts)).
Qed.

Lemma filter_audit_trace dr opts f l a :
  has_scheme env opts → flags opts = Some f →
  yields_artifacts env (final_opts (run env dr opts)) (config opts) l a →
  List.filter is_audit (trace (run env dr opts)) =
  match persistence_throws env f (final_opts (run env dr opts)) a with
  | Some _ => []
  | None => List.filter is_audit (run_audits l a).1
  end.
Proof.
  intros Hs Hf Hy. destruct (run_reaches_audits _ _ _ _ _ Hs Hf Hy) as [_ Hsch].
  unfold trace. rewrite Hsch, !List.filter_app.
  rewrite (logged_no_call _ _ _ not_collaborator_audit).
  destruct (persistence_calls_filters f (final_opts (run env dr opts)) a) as (_ & -> & _).
  assert (List.filter is_audit
            match classify (config opts) with
            | GatherAndAudit ps _ => [Gather ps (final_opts (run env dr opts))]
            | _ => []
            end = []) as -> by by destruct (classify (config opts)).
  simpl. destruct (persistence_throws _ _ _ _); [done|].
  destruct (run_audits l a) as [tr s].
  destruct (aggregate_events (final_opts (run env dr opts)) (config opts) tr s)
    as (extra & -> & Hextra).
  rewrite List.filter_app. simpl.
  rewrite (filter_nil_Forall is_audit extra); [by rewrite app_nil_r|].
  eapply Forall_impl; [exact Hextra|]. by intros ev (_ & _ & _ & ?).
Qed.

Lemma filter_aggregate_trace dr opts f l a :
  has_scheme env opts → flags opts = Some f →
  yields_artifacts env (final_opts (run env dr opts)) (config opts) l a →
  List.filter is_aggregate (trace (run env dr opts)) =
  match persistence_throws env f (final_opts (run env dr opts)) a,
        (run_audits l a).2, aggregations (config opts) with
  | None, Fulfilled rs, Some spec => [Aggregate spec rs]
  | _, _, _ => []
  end.
Proof.
  intros Hs Hf Hy. destruct (run_reaches_audits _ _ _ _ _ Hs Hf Hy) as [_ Hsch].
  unfold trace. rewrite Hsch, !List.filter_app.
  rewrite (logged_no_call _ _ _ not_collaborator_aggregate).
  destruct (persistence_calls_filters f (final_opts (run env dr opts)) a) as (_ & _ & ->).
  assert (List.filter is_aggregate
            match classify (config opts) with
            | GatherAndAudit ps _ => [Gather ps (final_opts (run env dr opts))]
            | _ => []
            end = []) as -> by by destruct (classify (config opts)).
  simpl. destruct (persistence_throws _ _ _ _); [done|].
  destruct (run_audits_filters l a) as (_ & Hagg & _).
  destruct (run_audits l a) as [tr [rs|e]]; simpl in *.
  - destruct (aggregations (config opts)) as [spec|] eqn:Ha.
    + rewrite (aggregate_some _ _ _ _ _ Ha). simpl.
      by rewrite List.filter_app, Hagg.
    + by rewrite (aggregate_none _ _ _ _ Ha).
  - by rewrite aggregate_rejected.
Qed.

Lemma start_audits_no_throw l : ∀ i a,
  (∀ d, d ∈ l → thrown_by (audit d a) = None) → (start_audits i l a).2 = None.
Proof.
  induction l as [|d l IH]; intros i a Hno; simpl; [done|].
  pose proof (Hno d (list_elem_of_here _ _)) as Hd.
  assert ((start_audits (S i) l a).2 = None) as Hrest
    by (apply IH; intros d' Hd'; apply Hno; by right).
  destruct (audit d a) as [e|v|t s]; [discriminate| |];
    by destruct (start_audits (S i) l a) as [[evs ps] thrown].
Qed.

(** ** Which failure a batch rejects with *)

Lemma insert_by_time_sorted (p : started Payload) ps :
  StronglySorted (λ x y, started_at x ≤ started_at y) ps →
  StronglySorted (λ x y, started_at x ≤ started_at y) (insert_by_time p ps).
Proof.
  induction 1 as [|q ps Hps IH Hq]; simpl; [by repeat constructor|].
  destruct (started_at p <=? started_at q) eqn:Hle.
  - apply Nat.leb_le in Hle. constructor; [by constructor|].
    constructor; [done|]. eapply Forall_impl; [exact Hq|]. simpl. lia.
  - apply Nat.leb_gt in Hle. constructor; [done|].
    rewrite insert_by_time_perm. constructor; [lia|done].
Qed.

Lemma completion_order_sorted (ps : list (started Payload)) :
  StronglySorted (λ x y, started_at x ≤ started_at y) (completion_order ps).
Proof.
  induction ps as [|p ps IH]; [constructor|].
  by apply insert_by_time_sorted.
Qed.

(** In a list sorted by settling time, the first rejection is one that
    no other rejection precedes. *)
Lemma first_rejection_earliest (ps : list (started Payload)) e rest :
  StronglySorted (λ x y, started_at x ≤ started_at y) ps →
  omap rejection_of ps = e :: rest →
  ∃ p, p ∈ ps ∧ started_result p = Rejected e ∧
       ∀ q e', q ∈ ps → started_result q = Rejected e' → started_at p ≤ started_at q.
Proof.
  induction 1 as [|p ps Hps IH Hp]; [done|]. csimpl.
  unfold rejection_of at 1. destruct (started_result p) as [v|e1] eqn:Hr.
  - intros (p' & Hin & Hr' & Hmin)%IH. exists p'. split; [by right|]. split; [done|].
    intros q e' [->|Hq]%elem_of_cons Hq'; [congruence|by eapply Hmin].
  - intros [= -> _]. exists p. split; [left|]. split; [done|].
    intros q e' [->|Hq]%elem_of_cons _; [done|].
    rewrite Forall_forall in Hp. by apply Hp.
Qed.

Lemma start_audits_times l : ∀ i a evs ps,
  start_audits i l a = (evs, ps, None) →
  Forall2 (λ d p, started_result p = adopt (audit d a) ∧
                  started_at p = settle_time (audit d a)) l ps.
Proof.
  induction l as [|d l IH]; intros i a evs ps Hs; simpl in Hs.
  - inversion Hs. constructor.
  - destruct (audit d a) as [e|v|t s] eqn:Hd; [discriminate| |];
      destruct (start_audits (S i) l a) as [[evs' ps'] thrown'] eqn:Hrest;
      inversion Hs; subst; (constructor; [by rewrite Hd|by eapply IH]).
Qed.

(** The failure a batch with a failing audit rejects with. *)
Lemma run_audits_first_failure l a d e :
  d ∈ l → audit_fails a d e →
  ∃ e' d',
    (run_audits l a).2 = Rejected e' ∧ d' ∈ l ∧ audit_fails a d' e' ∧
    ((∃ d'', d'' ∈ l ∧ is_Some (thrown_by (audit d'' a))) →
       thrown_by (audit d' a) = Some e') ∧
    ((∀ d'', d'' ∈ l → thrown_by (audit d'' a) = None) →
       ∀ d'' e'', d'' ∈ l → audit_fails a d'' e'' →
         settle_time (audit d' a) ≤ settle_time (audit d'' a)).
Proof.
  intros Hin Hd. destruct (run_audits_fails _ _ _ _ Hin Hd) as [e' He'].
  exists e'. unfold run_audits, audit_fails in *.
  destruct (start_audits 0 l a) as [[evs ps] [e1|]] eqn:Hs; simpl in He'.
  - injection He' as ->.
    destruct (start_audits_some _ _ _ _ _ _ Hs) as (d' & Hin' & Hd').
    exists d'. rewrite Hd'. repeat split; [done|].
    intros Hno. specialize (Hno d' Hin'). by rewrite Hd' in Hno.
  - pose proof (start_audits_times _ _ _ _ _ Hs) as HF.
    destruct (start_audits_none _ _ _ _ _ Hs) as (_ & Hno & _).
    unfold promise_all in *. simpl.
    destruct (omap rejection_of (completion_order ps)) as [|e2 rest] eqn:Hrej;
      [discriminate|]. injection He' as ->.
    destruct (first_rejection_earliest _ _ _ (completion_order_sorted ps) Hrej)
      as (p & Hp & Hr & Hmin).
    rewrite completion_order_perm in Hp.
    apply list_elem_of_lookup in Hp as [i Hi].
    destruct (Forall2_lookup_r _ _ _ _ _ HF Hi) as (d' & Hi' & Hres & Htime).
    exists d'. split; [done|]. split; [by eapply list_elem_of_lookup_2|].
    split; [congruence|]. split.
    + intros (d'' & Hin'' & Hsome). rewrite (Hno _ Hin'') in Hsome.
      by destruct Hsome.
    + intros _ d'' e'' Hin'' Hd''.
      apply list_elem_of_lookup in Hin'' as [j Hj].
      destruct (Forall2_lookup_l _ _ _ _ _ HF Hj) as (q & Hq & Hqres & Hqtime).
      rewrite <- Htime, <- Hqtime. apply (Hmin q e'').
      * rewrite completion_order_perm. by eapply list_elem_of_lookup_2.
      * congruence.
Qed.

(** ** Claims *)




(** C4, as amended.  Take a call in Mode A or B that reaches the
    audits with the artifacts [a] (URL with a scheme, [opts.flags]
    present, no persistence call throwing).  If no audit throws, each
    configured audit is called once, on [a], in the order of
    [config.audits], whether it succeeds or not.  If every audit
    succeeds on [a], at once or at any later time, the audit at position
    [i] with [rs !! i], then the result list is [rs], in that same
    order and as long as the audits are; it is what the promise fulfils
    with when no aggregations are configured, and what the [audits]
    mapping of the report is built from otherwise.  Each entry of the
    mapping sits under the [name] of its value, which is one of the
    results and never [__proto__]; every result named otherwise has its
    name in the mapping, and of several results of one name the last is
    the one kept; so the mapping has one entry per distinct name other
    than [__proto__], and as many entries as audits when the names are
    pairwise distinct and none is [__proto__], in which case every
    result is its own entry. *)
Theorem audits_run_once_in_configured_order dr opts f l a :
  has_scheme env opts → flags opts = Some f →
  yields_artifacts env (final_opts (run env dr opts)) (config opts) l a →
  persistence_throws env f (final_opts (run env dr opts)) a = None →
  ((∀ d, d ∈ l → thrown_by (audit d a) = None) →
     List.filter is_audit (trace (run env dr opts)) = imap (λ i _, RunAudit i a) l) ∧
  (∀ rs, Forall2 (audit_yields a) l rs →
     (run_audits l a).2 = Fulfilled rs ∧
     length rs = length l ∧
     match aggregations (config opts) with
     | None => result (run env dr opts) = Returned (Fulfilled (Flat rs))
     | Some spec =>
         result (run env dr opts) =
           Returned match adopt (Aggregator_aggregate env spec rs) with
                    | Fulfilled aggs => Fulfilled (Shaped (report_of env opts rs aggs))
                    | Rejected e => Rejected e
                    end
     end ∧
     (∀ k v, formatAudits rs !! k = Some v → name v = k ∧ v ∈ rs ∧ k ≠ "__proto__") ∧
     (∀ v : AuditResult, v ∈ rs → name v ≠ "__proto__" →
        is_Some (formatAudits rs !! name v)) ∧
     (∀ rs1 (r : AuditResult) rs2, rs = rs1 ++ r :: rs2 → name r ≠ "__proto__" →
        (∀ r', r' ∈ rs2 → name r' ≠ name r) → formatAudits rs !! name r = Some r) ∧
     formatAudits rs !! "__proto__" = None ∧
     size (formatAudits rs) =
       size (list_to_set (name <$> rs) ∖ {["__proto__"]} : gset string) ∧
     (NoDup (name <$> rs) → Forall (λ r : AuditResult, name r ≠ "__proto__") rs →
        size (formatAudits rs) = length l ∧
        ∀ v : AuditResult, v ∈ rs → formatAudits rs !! name v = Some v)).
Proof.
  intros Hs Hf Hy Ht. split.
  - intros Hno. rewrite (filter_audit_trace _ _ _ _ _ Hs Hf Hy), Ht.
    pose proof (start_audits_no_throw l 0 a Hno) as Hthrown.
    unfold run_audits.
    destruct (start_audits 0 l a) as [[evs ps] thrown] eqn:Hst. simpl in *. subst.
    destruct (start_audits_none _ _ _ _ _ Hst) as (_ & _ & Hcalls).
    by rewrite List.filter_app, status_ends_no_audit, app_nil_r, Hcalls.
  - intros rs HF.
    pose proof (Forall2_length _ _ _ HF) as Hlen.
    pose proof (proj2 (run_audits_fulfilled l a rs) HF) as Hra.
    split; [done|split; [done|split; [|split; [|split; [|split; [|split; [|split]]]]]]].
    + destruct (run_reaches_audits _ _ _ _ _ Hs Hf Hy) as [-> _]. rewrite Ht.
      destruct (run_audits l a) as [tr s]. simpl in Hra. subst s.
      assert (url (final_opts (run env dr opts)) = url (normalized env opts) ∧
              initialUrl (final_opts (run env dr opts)) = initialUrl (normalized env opts))
        as [Hu Hi].
      { rewrite final_opts_run. destruct (protocol _); [destruct (classify _)|]; done. }
      destruct (aggregations (config opts)) as [spec|] eqn:Ha.
      * rewrite (aggregate_some _ _ _ _ _ Ha). simpl. by rewrite Hu, Hi.
      * by rewrite (aggregate_none _ _ _ _ Ha).
    + apply formatAudits_lookup.
    + apply formatAudits_is_Some.
    + intros rs1 r rs2 ->. apply formatAudits_last.
    + apply formatAudits_proto.
    + apply formatAudits_size.
    + intros Hnd Hall. rewrite Hlen. by apply formatAudits_NoDup.
Qed.

(** C5. The promise returned by a call fulfils with [v] exactly when
    the chain got as far as an audit-result collection [rs] and, if
    [config.aggregations] is there, [Aggregator.aggregate] answered
    with some [aggs].  With aggregations [v] is the report
    [{initialUrl, url, audits, aggregations}], whose [aggregations] are
    [aggs] as the aggregator returned them; without, [v] is the flat
    collection [rs] (in Mode C: [config.auditResults]) and not a
    report. *)
Theorem report_shape_iff_aggregations dr opts v :
  result (run env dr opts) = Returned (Fulfilled v) ↔
  ∃ rs, results_available env dr opts rs ∧
    match aggregations (config opts) with
    | None => v = Flat rs
    | Some spec => ∃ aggs,
        adopt (Aggregator_aggregate env spec rs) = Fulfilled aggs ∧
        v = Shaped (report_of env opts rs aggs) ∧
        report_aggregations (report_of env opts rs aggs) = aggs
    end.
Proof.
  rewrite run_fulfilled. split; intros (rs & Hrs & H); exists rs; (split; [done|]);
    destruct (aggregations (config opts)); try done.
  - destruct H as (aggs & ? & ?). by exists aggs.
  - destruct H as (aggs & ? & ? & _). by exists aggs.
Qed.

(** C6, as amended.  Take a call in Mode A or B whose artifacts [a]
    arrived (URL with a scheme, [opts.flags] present).  The persistence
    calls made are [saveArtifacts a] when [flags.saveArtifacts] is set
    and then [saveAssets opts a] when [flags.saveAssets] is set, on the
    very [a] the chain carries.  If one of them throws, the promise
    rejects with what was thrown and neither an audit nor the
    aggregator is called.  If none throws, whatever they return (a
    promise that rejects later included) is dropped and not waited for:
    the audits are called on the same [a], and the call ends as the
    audits and the aggregation on [a] make it end. *)
Theorem persistence_calls_pass_artifacts_on dr opts f l a :
  has_scheme env opts → flags opts = Some f →
  yields_artifacts env (final_opts (run env dr opts)) (config opts) l a →
  List.filter is_persist (trace (run env dr opts)) =
    persistence_calls env f (final_opts (run env dr opts)) a ∧
  (∀ e, persistence_throws env f (final_opts (run env dr opts)) a = Some e →
     result (run env dr opts) = Returned (Rejected e) ∧
     List.filter is_audit (trace (run env dr opts)) = [] ∧
     List.filter is_aggregate (trace (run env dr opts)) = []) ∧
  (persistence_throws env f (final_opts (run env dr opts)) a = None →
     result (run env dr opts) =
       Returned (aggregate env (final_opts (run env dr opts)) (config opts)
                   (run_audits l a)).2 ∧
     List.filter is_audit (trace (run env dr opts)) =
       List.filter is_audit (run_audits l a).1 ∧
     Forall (audit_phase_event a) (run_audits l a).1).
Proof.
  intros Hs Hf Hy.
  destruct (run_reaches_audits _ _ _ _ _ Hs Hf Hy) as [Hres _].
  split; [by apply filter_persist_trace with l|]. split.
  - intros e Ht.
    rewrite Hres, (filter_audit_trace _ _ _ _ _ Hs Hf Hy),
      (filter_aggregate_trace _ _ _ _ _ Hs Hf Hy), Ht. done.
  - intros Ht.
    rewrite Hres, (filter_audit_trace _ _ _ _ _ Hs Hf Hy), Ht.
    split; [done|]. split; [done|]. apply run_audits_events.
Qed.

(** C7, as amended.  Take a call in Mode A or B that reaches the audits
    with the artifacts [a].  If a configured audit fails on [a] (it
    throws, or the promise it returns rejects), then the promise returned
    by the call rejects and the aggregator is not called.  The error is
    that of one configured audit that failed: of an audit that threw, if
    one did; otherwise of an audit whose promise rejected no later than
    that of any other failing audit.  The failures of the other audits
    are not reported; when only one error is there to fail with, in
    particular when a single audit fails, that error is the one the call
    rejects with. *)
Theorem failing_audit_rejects_run dr opts f l a d e :
  has_scheme env opts → flags opts = Some f →
  yields_artifacts env (final_opts (run env dr opts)) (config opts) l a →
  persistence_throws env f (final_opts (run env dr opts)) a = None →
  d ∈ l → audit_fails a d e →
  ∃ e' d',
    result (run env dr opts) = Returned (Rejected e') ∧
    d' ∈ l ∧ audit_fails a d' e' ∧
    List.filter is_aggregate (trace (run env dr opts)) = [] ∧
    ((∃ d'', d'' ∈ l ∧ is_Some (thrown_by (audit d'' a))) →
       thrown_by (audit d' a) = Some e') ∧
    ((∀ d'', d'' ∈ l → thrown_by (audit d'' a) = None) →
       ∀ d'' e'', d'' ∈ l → audit_fails a d'' e'' →
         settle_time (audit d' a) ≤ settle_time (audit d'' a)) ∧
    ((∀ d'' e'', d'' ∈ l → audit_fails a d'' e'' → e'' = e) → e' = e).
Proof.
  intros Hs Hf Hy Ht Hin Hd.
  destruct (run_audits_first_failure l a d e Hin Hd)
    as (e' & d' & He' & Hin' & Hd' & Hthrow & Hfirst).
  exists e', d'. split; [|split; [done|split; [done|split; [|split; [done|split; [done|]]]]]].
  - destruct (run_reaches_audits _ _ _ _ _ Hs Hf Hy) as [-> _]. rewrite Ht.
    destruct (run_audits l a) as [tr s]. simpl in He'. subst s.
    by rewrite aggregate_rejected.
  - by rewrite (filter_aggregate_trace _ _ _ _ _ Hs Hf Hy), Ht, He'.
  - intros Honly. by apply (Honly d').
Qed.

(** C8. Every call records the URL it was given, as it is, in
    [opts.initialUrl], and replaces [opts.url] by the re-serialization
    [url.format (url.parse url)]; a report carries these two values, and
    a report is what the promise fulfils with whenever aggregations are
    configured, the chain gets as far as the audit results and the
    aggregator answers.
    The warnings logged are the two HTTPS warnings when the scheme does
    not include [https] (or the hostname is the literal
    [http://localhost]) and none otherwise; apart from them a call
    throws only for want of a mode or of [opts.flags].  So for
    [http://example.com], which the library parses with the scheme
    [http:], exactly two warnings are logged and the call goes on, and
    for [https://example.com/], parsed with the scheme [https:] and the
    hostname [example.com], none is. *)
Theorem url_recorded_and_canonicalized dr opts :
  initialUrl (final_opts (run env dr opts)) = Some (url opts) ∧
  url (final_opts (run env dr opts)) = url_format env (url_parse env (url opts)) ∧
  (∀ report, result (run env dr opts) = Returned (Fulfilled (Shaped report)) →
     report_initialUrl report = Some (url opts) ∧
     report_url report = url_format env (url_parse env (url opts))) ∧
  (∀ proto, protocol (url_parse env (url opts)) = Some proto →
     List.filter is_warn (trace (run env dr opts)) = url_warnings env opts proto ∧
     (∀ e, result (run env dr opts) = Threw e →
        classify (config opts) = NoMode ∨ flags opts = None)) ∧
  (url opts = "http://example.com" →
   protocol (url_parse env (url opts)) = Some "http:" →
     List.filter is_warn (trace (run env dr opts)) = https_warnings ∧
     length (List.filter is_warn (trace (run env dr opts))) = 2) ∧
  (url opts = "https://example.com/" →
   protocol (url_parse env (url opts)) = Some "https:" →
   hostname (url_parse env (url opts)) = Some "example.com" →
     List.filter is_warn (trace (run env dr opts)) = []) ∧
  (∀ rs spec aggs, results_available env dr opts rs →
     aggregations (config opts) = Some spec →
     adopt (Aggregator_aggregate env spec rs) = Fulfilled aggs →
     ∃ report,
       result (run env dr opts) = Returned (Fulfilled (Shaped report)) ∧
       report_initialUrl report = Some (url opts) ∧
       report_url report = url_format env (url_parse env (url opts))).
Proof.
  assert (∀ proto, protocol (url_parse env (url opts)) = Some proto →
            List.filter is_warn (trace (run env dr opts)) =
            url_warnings env opts proto) as Hwarn.
  { intros proto Hp. unfold trace. rewrite List.filter_app.
    destruct (logged_only_warn dr opts) as [-> _]. rewrite logged_run, Hp.
    destruct (scheduled_run dr opts) as (rest & Hrest & ->). rewrite Hp.
    assert (List.filter is_warn rest = []) as Hr
      by (apply filter_later; [by intros ev [_ ?]|done]).
    destruct (classify (config opts)); simpl; by rewrite Hr, app_nil_r. }
  split; [|split; [|split; [|split; [|split; [|split]]]]].
  - rewrite final_opts_run.
    destruct (protocol _); [destruct (classify _)|]; done.
  - rewrite final_opts_run.
    destruct (protocol _); [destruct (classify _)|]; done.
  - intros report (rs & _ & H)%run_fulfilled.
    destruct (aggregations (config opts)); [|discriminate].
    destruct H as (aggs & _ & [= ->]). done.
  - intros proto Hp. split; [by apply Hwarn|].
    intros e. rewrite (run_scheme _ _ _ Hp).
    destruct (classify (config opts)) as [ps l|a l|rs|]; [| |discriminate|by left].
    + destruct (flags opts) as [f|] eqn:Hf; [|by right].
      destruct (adopt (GatherRunner_run env ps (set_driver (normalized env opts) dr))).
      * by rewrite (persist_and_audit_fulfilled _ _ _ _ _ _ f).
      * by rewrite (persist_and_audit_rejected _ _ _ _ _ _ f).
    + destruct (flags opts) as [f|] eqn:Hf; [|by right].
      by rewrite (persist_and_audit_fulfilled _ _ _ _ _ _ f).
  - intros Hu Hp. rewrite (Hwarn _ Hp). unfold url_warnings. done.
  - intros Hu Hp Hh. rewrite (Hwarn _ Hp). unfold url_warnings. by rewrite Hh.
  - intros rs spec aggs Hrs Ha Hagg. exists (report_of env opts rs aggs).
    split; [|done]. apply run_fulfilled. exists rs. split; [done|].
    rewrite Ha. by exists aggs.
Qed.

(** C9, as amended.  A call writes to the [opts] object: it sets
    [initialUrl] to the URL it was given, replaces [url] by its
    re-serialization and, in Mode A (once the URL parsed with a
    scheme), sets [driver]; [config] and [flags] are left as they
    were. *)
Theorem run_writes_initialUrl_url_driver dr opts :
  config (final_opts (run env dr opts)) = config opts ∧
  flags (final_opts (run env dr opts)) = flags opts ∧
  initialUrl (final_opts (run env dr opts)) = Some (url opts) ∧
  url (final_opts (run env dr opts)) = url_format env (url_parse env (url opts)) ∧
  driver (final_opts (run env dr opts)) =
    match protocol (url_parse env (url opts)) with
    | Some _ => if validPassesAndAudits (config opts) then Some dr else driver opts
    | None => driver opts
    end.
Proof.
  rewrite final_opts_run.
  destruct (protocol (url_parse env (url opts))); [|done].
  destruct (validPassesAndAudits (config opts)) eqn:HA.
  - destruct (classify_gather _ HA) as (ps & l & _ & _ & ->). done.
  - pose proof (classify_not_gather _ HA).
    by destruct (classify (config opts)).
Qed.


(** ** Further properties of [run] *)

Lemma aggregate_snd o c tr (s : settled (list AuditResult)) :
  (aggregate env o c (tr, s)).2 = (aggregate env o c ([], s)).2.
Proof. by rewrite <- (app_nil_r tr), aggregate_prefix. Qed.

Lemma aggregate_fst o c tr (s : settled (list AuditResult)) :
  (aggregate env o c (tr, s)).1 = tr ++ aggregate_calls c s.
Proof.
  unfold aggregate_calls. destruct s as [rs|e].
  - destruct (aggregations c) as [spec|] eqn:Ha.
    + by rewrite (aggregate_some _ _ _ _ _ Ha).
    + rewrite (aggregate_none _ _ _ _ Ha). simpl. by rewrite app_nil_r.
  - rewrite aggregate_rejected. simpl. by rewrite app_nil_r.
Qed.

Lemma final_opts_fields dr opts :
  url (final_opts (run env dr opts)) = url_format env (url_parse env (url opts)) ∧
  initialUrl (final_opts (run env dr opts)) = Some (url opts) ∧
  config (final_opts (run env dr opts)) = config opts ∧
  flags (final_opts (run env dr opts)) = flags opts.
Proof.
  rewrite final_opts_run.
  destruct (protocol _); [destruct (classify _)|]; done.
Qed.

(** Where the chain has an audit-result collection, the call ends as the
    aggregation step on it ends. *)
Lemma run_results_available dr opts rs :
  results_available env dr opts rs →
  result (run env dr opts) =
    Returned (aggregate env (final_opts (run env dr opts)) (config opts)
                ([], Fulfilled rs)).2.
Proof.
  intros [Hs Hm].
  destruct (classify (config opts)) as [ps l|a' l|rs'|] eqn:Hc; [| | |done].
  - destruct Hm as (f & a & Hf & Hy & Ht & HF).
    destruct (run_reaches_audits _ _ _ _ _ Hs Hf Hy) as [-> _]. rewrite Ht.
    apply run_audits_fulfilled in HF.
    destruct (run_audits l a) as [tr s]. simpl in HF. subst s.
    by rewrite aggregate_snd.
  - destruct Hm as (f & a & Hf & Hy & Ht & HF).
    destruct (run_reaches_audits _ _ _ _ _ Hs Hf Hy) as [-> _]. rewrite Ht.
    apply run_audits_fulfilled in HF.
    destruct (run_audits l a) as [tr s]. simpl in HF. subst s.
    by rewrite aggregate_snd.
  - subst rs'. destruct Hs as [proto Hp].
    destruct (run_results_only dr _ _ _ Hp Hc) as [-> _].
    rewrite final_opts_run, Hp, Hc. done.
Qed.

Lemma trace_warnings dr opts proto :
  protocol (url_parse env (url opts)) = Some proto →
  List.filter is_warn (trace (run env dr opts)) = url_warnings env opts proto.
Proof.
  intros Hp. unfold trace. rewrite List.filter_app.
  destruct (logged_only_warn dr opts) as [-> _]. rewrite logged_run, Hp.
  destruct (scheduled_run dr opts) as (rest & Hrest & ->). rewrite Hp.
  assert (List.filter is_warn rest = []) as Hr
    by (apply filter_later; [by intros ev [_ ?]|done]).
  destruct (classify (config opts)); simpl; by rewrite Hr, app_nil_r.
Qed.

(** [String.prefix] and [includes], by what they accept. *)
Lemma prefix_spec (s1 s2 : string) :
  String.prefix s1 s2 = true ↔ ∃ post, s2 = s1 +:+ post.
Proof.
  revert s2. induction s1 as [|ch s1 IH]; intros s2.
  - destruct s2; simpl; (split; [intros _; eexists; reflexivity|done]).
  - destruct s2 as [|ch' s2]; simpl; [split; [done|by intros [? ?]]|].
    destruct (Ascii.ascii_dec ch ch') as [->|Hne].
    + rewrite IH. split; intros [post H]; exists post; [by rewrite H|by inversion H].
    + split; [done|]. intros [post H]. inversion H. done.
Qed.

Lemma includes_cons (search : string) (ch : Ascii.ascii) (s : string) :
  includes search (String ch s) =
  String.prefix search (String ch s) || includes search s.
Proof. reflexivity. Qed.

Lemma includes_spec (search s : string) :
  includes search s = true ↔ ∃ pre post, s = pre +:+ search +:+ post.
Proof.
  induction s as [|ch s IH].
  - change (includes search "") with (String.prefix search "" || false).
    rewrite orb_false_r, prefix_spec. split.
    + intros [post H]. by exists "", post.
    + intros (pre & post & H). destruct pre; [by exists post|done].
  - rewrite includes_cons, orb_true_iff, IH, prefix_spec. split.
    + intros [[post H]|(pre & post & H)].
      * by exists "", post.
      * exists (String ch pre), post. simpl. by rewrite H.
    + intros (pre & post & H). destruct pre as [|ch' pre].
      * left. by exists post.
      * right. exists pre, post. by inversion H.
Qed.

(** Without an exception the [map] announces every audit and keeps, for
    each, the promise its [statusEnd] line hangs on. *)
Lemma start_audits_announce l : ∀ i a evs ps,
  start_audits i l a = (evs, ps, None) →
  evs = announcements i l a ∧
  omap (λ p : started Payload,
          match started_result p return option event with
          | Fulfilled _ => Some (StatusEnd (started_status p))
          | Rejected _ => None
          end) ps = omap (status_end_of a) l.
Proof.
  induction l as [|d l IH]; intros i a evs ps Hs; simpl in Hs.
  - by inversion Hs.
  - destruct (audit d a) as [e|v|t s] eqn:Hd; [discriminate| |];
      destruct (start_audits (S i) l a) as [[evs' ps'] thrown'] eqn:Hrest;
      inversion Hs; subst; destruct (IH _ _ _ _ Hrest) as [-> Hends];
      (split; [done|]); csimpl; unfold status_end_of at 1; rewrite Hd; simpl;
      rewrite Hends; done.
Qed.

(** An audit that throws ends the [map]: the audits before it were
    called, those after it are not. *)
Lemma start_audits_throw l1 d l2 a e : ∀ i,
  (∀ d', d' ∈ l1 → thrown_by (audit d' a) = None) →
  audit d a = Throws e →
  ∃ evs ps, start_audits i (l1 ++ d :: l2) a = (evs, ps, Some e) ∧
            List.filter is_audit evs = imap (λ j _, RunAudit (i + j) a) (l1 ++ [d]).
Proof.
  induction l1 as [|d1 l1 IH]; intros i Hno Hd; simpl.
  - rewrite Hd. do 2 eexists. split; [done|]. simpl. by rewrite Nat.add_0_r.
  - pose proof (Hno d1 (list_elem_of_here _ _)) as Hd1.
    destruct (IH (S i)) as (evs & ps & -> & Hcalls);
      [intros d' Hd'; apply Hno; by right|done|].
    destruct (audit d1 a) as [e1|v|t s]; [discriminate| |];
      do 2 eexists; (split; [done|]); simpl; rewrite Hcalls, Nat.add_0_r;
      f_equal; apply imap_ext; intros j x _; simpl; f_equal; lia.
Qed.

(** X1. Mode A, URL with a scheme, [opts.flags] present: when the
    gatherer throws, or the promise it returns rejects, the promise of
    the call rejects with the same error, and the call of the gatherer is
    all that was scheduled: no persistence call, no audit, no
    aggregation. *)
Theorem gather_failure_rejects_run dr opts f ps l e :
  has_scheme env opts → flags opts = Some f →
  passes (config opts) = Some ps → audits (config opts) = Some l →
  adopt (GatherRunner_run env ps (final_opts (run env dr opts))) = Rejected e →
  result (run env dr opts) = Returned (Rejected e) ∧
  scheduled (run env dr opts) = [Gather ps (final_opts (run env dr opts))].
Proof.
  intros [proto Hp] Hf Hps Hl.
  assert (classify (config opts) = GatherAndAudit ps l) as Hm
    by (unfold classify; by rewrite Hps, Hl).
  rewrite final_opts_run, Hp, Hm, (run_scheme _ _ _ Hp), Hm. intros ->.
  by rewrite (persist_and_audit_rejected _ _ _ _ _ _ f).
Qed.

(** X2. A call in Mode A or B whose artifacts [a] arrived and whose
    persistence calls did not throw schedules, in this order: the call of
    the gatherer (Mode A), the persistence calls on [a], the status lines
    and audit calls on [a], and last, when the audits all succeeded and
    aggregations are configured, the call of the aggregator on their
    results. *)
Theorem phases_in_sequence dr opts f l a :
  has_scheme env opts → flags opts = Some f →
  yields_artifacts env (final_opts (run env dr opts)) (config opts) l a →
  persistence_throws env f (final_opts (run env dr opts)) a = None →
  scheduled (run env dr opts) =
    match classify (config opts) with
    | GatherAndAudit ps _ => [Gather ps (final_opts (run env dr opts))]
    | _ => []
    end ++
    persistence_calls env f (final_opts (run env dr opts)) a ++
    (run_audits l a).1 ++
    aggregate_calls (config opts) (run_audits l a).2 ∧
  Forall (audit_phase_event a) (run_audits l a).1.
Proof.
  intros Hs Hf Hy Ht. split; [|apply run_audits_events].
  destruct (run_reaches_audits _ _ _ _ _ Hs Hf Hy) as [_ ->]. rewrite Ht.
  destruct (run_audits l a) as [tr s]. by rewrite aggregate_fst.
Qed.

(** X3. When the chain has an audit-result collection [rs] and the
    configured aggregator fails on it (it throws, or its promise
    rejects), the promise of the call rejects with that error: the audit
    results are not returned on their own. *)
Theorem aggregation_failure_rejects_run dr opts rs spec e :
  results_available env dr opts rs →
  aggregations (config opts) = Some spec →
  adopt (Aggregator_aggregate env spec rs) = Rejected e →
  result (run env dr opts) = Returned (Rejected e).
Proof.
  intros Hrs Ha He. rewrite (run_results_available _ _ _ Hrs).
  rewrite (aggregate_some _ _ _ _ _ Ha). simpl. by rewrite He.
Qed.

(** X4. An empty [config.audits] is a valid Mode A/B configuration: once
    the artifacts are there and the persistence calls did not throw, no
    audit is called, and the promise fulfils with the empty list or, with
    aggregations, with a report whose [audits] mapping is empty and whose
    aggregations are what the aggregator makes of no results. *)
Theorem no_audits_configured dr opts f a :
  has_scheme env opts → flags opts = Some f →
  yields_artifacts env (final_opts (run env dr opts)) (config opts) [] a →
  persistence_throws env f (final_opts (run env dr opts)) a = None →
  List.filter is_audit (trace (run env dr opts)) = [] ∧
  match aggregations (config opts) with
  | None => result (run env dr opts) = Returned (Fulfilled (Flat []))
  | Some spec =>
      result (run env dr opts) =
        Returned match adopt (Aggregator_aggregate env spec []) with
                 | Fulfilled aggs => Fulfilled (Shaped (report_of env opts [] aggs))
                 | Rejected e => Rejected e
                 end ∧
      report_audits (report_of env opts [] []) = ∅
  end.
Proof.
  intros Hs Hf Hy Ht.
  split; [by rewrite (filter_audit_trace _ _ _ _ _ Hs Hf Hy), Ht|].
  destruct (run_reaches_audits _ _ _ _ _ Hs Hf Hy) as [-> _]. rewrite Ht.
  destruct (final_opts_fields dr opts) as (Hu & Hi & _).
  assert (run_audits [] a = ([], Fulfilled [])) as -> by reflexivity.
  destruct (aggregations (config opts)) as [spec|] eqn:Ha.
  - rewrite (aggregate_some _ _ _ _ _ Ha). simpl. by rewrite Hu, Hi.
  - by rewrite (aggregate_none _ _ _ _ Ha).
Qed.

(** X5. When an audit throws (rather than returning a rejecting
    promise), the [map] over [config.audits] stops there: the audits
    before it and the throwing one were called, the audits after it never
    are, the promise of the call rejects with what was thrown, and the
    aggregator is not called. *)
Theorem throwing_audit_stops_map dr opts f l1 d l2 a e :
  has_scheme env opts → flags opts = Some f →
  yields_artifacts env (final_opts (run env dr opts)) (config opts)
    (l1 ++ d :: l2) a →
  persistence_throws env f (final_opts (run env dr opts)) a = None →
  (∀ d', d' ∈ l1 → thrown_by (audit d' a) = None) →
  audit d a = Throws e →
  result (run env dr opts) = Returned (Rejected e) ∧
  List.filter is_audit (trace (run env dr opts)) =
    imap (λ i _, RunAudit i a) (l1 ++ [d]) ∧
  List.filter is_aggregate (trace (run env dr opts)) = [].
Proof.
  intros Hs Hf Hy Ht Hno Hd.
  destruct (start_audits_throw l1 d l2 a e 0 Hno Hd) as (evs & ps & Hst & Hcalls).
  assert (run_audits (l1 ++ d :: l2) a = (evs ++ status_ends ps, Rejected e)) as Hra
    by (unfold run_audits; by rewrite Hst).
  split; [|split].
  - destruct (run_reaches_audits _ _ _ _ _ Hs Hf Hy) as [-> _].
    by rewrite Ht, Hra, aggregate_rejected.
  - rewrite (filter_audit_trace _ _ _ _ _ Hs Hf Hy), Ht, Hra. simpl.
    by rewrite List.filter_app, status_ends_no_audit, app_nil_r.
  - by rewrite (filter_aggregate_trace _ _ _ _ _ Hs Hf Hy), Ht, Hra.
Qed.

(** X6. When no audit throws, the audit phase first logs, for each audit
    in the order of [config.audits], its status line and then calls it;
    the [statusEnd] lines follow, one for every audit that succeeds and
    none for one that fails, in the order the audits settle. *)
Theorem status_lines_frame_audits l a :
  (∀ d, d ∈ l → thrown_by (audit d a) = None) →
  ∃ ends : list event,
    (run_audits l a).1 = announcements 0 l a ++ ends ∧
    ends ≡ₚ omap (status_end_of a) l.
Proof.
  intros Hno. pose proof (start_audits_no_throw l 0 a Hno) as Hthrown.
  unfold run_audits.
  destruct (start_audits 0 l a) as [[evs ps] thrown] eqn:Hs. simpl in *. subst.
  destruct (start_audits_announce _ _ _ _ _ Hs) as [-> Hends].
  eexists. split; [done|].
  unfold status_ends. by rewrite completion_order_perm, Hends.
Qed.

(** X7. In the [audits] mapping, the own properties of the object that
    lines 106-109 fill, the last result of a name other than [__proto__]
    is the one kept; a result named [__proto__] gets no entry; and the
    mapping never has more entries than there are results. *)
Theorem formatAudits_last_write_wins rs1 (r : AuditResult) rs2 :
  name r ≠ "__proto__" →
  (∀ r', r' ∈ rs2 → name r' ≠ name r) →
  formatAudits (rs1 ++ r :: rs2) !! name r = Some r ∧
  formatAudits (rs1 ++ r :: rs2) !! "__proto__" = None ∧
  size (formatAudits (rs1 ++ r :: rs2)) ≤ length (rs1 ++ r :: rs2).
Proof.
  intros Hr Hlater. split; [by apply formatAudits_last|].
  split; [apply formatAudits_proto|apply formatAudits_size_le].
Qed.

(** X8. Calling [run] again on the [opts] object of an earlier call
    overwrites [initialUrl]: it then holds the re-serialized URL of the
    first call, not the URL the user gave. *)
Theorem second_run_overwrites_initialUrl dr dr' opts :
  initialUrl (final_opts (run env dr opts)) = Some (url opts) ∧
  initialUrl (final_opts (run env dr' (final_opts (run env dr opts)))) =
    Some (url_format env (url_parse env (url opts))).
Proof.
  destruct (final_opts_fields dr opts) as (Hu & Hi & _).
  destruct (final_opts_fields dr' (final_opts (run env dr opts))) as (_ & Hi' & _).
  by rewrite Hi', Hu.
Qed.

(** X9. Whenever the gatherer is called, it is called with
    [config.passes] and the caller's [opts] object as the call leaves it:
    [driver] set to the handle given to [run], [url] re-serialized,
    [initialUrl] the URL as given, [config] and [flags] untouched. *)
Theorem gatherer_receives_prepared_opts dr opts ps o :
  Gather ps o ∈ trace (run env dr opts) →
  passes (config opts) = Some ps ∧
  o = final_opts (run env dr opts) ∧
  driver o = Some dr ∧
  url o = url_format env (url_parse env (url opts)) ∧
  initialUrl o = Some (url opts) ∧
  config o = config opts ∧
  flags o = flags opts.
Proof.
  unfold trace. intros [Hin|Hin]%elem_of_app.
  - destruct (logged_only_warn dr opts) as [_ Hlg].
    rewrite Forall_forall in Hlg. by specialize (Hlg _ Hin).
  - destruct (scheduled_run dr opts) as (rest & Hrest & Hsch).
    rewrite Hsch in Hin. rewrite Forall_forall in Hrest.
    assert (Gather ps o ∉ rest) as Hnot
      by (intros H; by destruct (Hrest _ H)).
    destruct (final_opts_fields dr opts) as (Hu & Hi & Hc & Hf).
    pose proof (final_opts_run dr opts) as Hfo.
    destruct (protocol (url_parse env (url opts))); [|done].
    unfold classify in *.
    destruct (passes (config opts)) as [ps'|], (audits (config opts)) as [l|];
      try (by destruct (artifacts (config opts)), (auditResults (config opts))).
    apply elem_of_cons in Hin as [[= -> ->]|Hin]; [|done].
    repeat split; try done. by rewrite Hfo.
Qed.

(** X10. Outside Mode A the handle given to [run] is not used: the call
    does the same and leaves the same [opts] whatever handle it gets. *)
Theorem driver_unused_outside_mode_A dr dr' opts :
  validPassesAndAudits (config opts) = false →
  run env dr opts = run env dr' opts.
Proof.
  intros HA. pose proof (classify_not_gather _ HA) as Hm.
  destruct (protocol (url_parse env (url opts))) as [proto|] eqn:Hp.
  - rewrite !(run_scheme _ _ _ Hp). by destruct (classify (config opts)).
  - by rewrite !(run_no_scheme _ _ Hp).
Qed.

(** X11. For a URL that parses with a scheme, no warning is logged
    exactly when the scheme has [https] somewhere in it and the hostname
    is not the literal [http://localhost]; in every other case, plain
    [http:] on [localhost] included, both HTTPS warnings are logged, and
    nothing else is ever warned about. *)
Theorem warnings_iff_insecure_scheme dr opts proto :
  protocol (url_parse env (url opts)) = Some proto →
  (List.filter is_warn (trace (run env dr opts)) = [] ↔
     (∃ pre post, proto = pre +:+ "https" +:+ post) ∧
     hostname (url_parse env (url opts)) ≠ Some "http://localhost") ∧
  (List.filter is_warn (trace (run env dr opts)) = [] ∨
   List.filter is_warn (trace (run env dr opts)) = https_warnings).
Proof.
  intros Hp. rewrite (trace_warnings _ _ _ Hp). unfold url_warnings.
  rewrite <- includes_spec.
  destruct (includes "https" proto); simpl.
  - unfold strict_eq. destruct (hostname (url_parse env (url opts))) as [h|].
    + destruct (bool_decide_reflect (h = "http://localhost")) as [->|Hne].
      * split; [|by right]. split; [done|]. by intros [_ ?].
      * split; [|by left]. split; [|done]. intros _. split; [done|congruence].
    + split; [|by left]. done.
  - split; [|by right]. split; [done|]. by intros [? _].
Qed.

End Properties.

(** * Properties of [getAuditList] *)

Lemma test_js_spec (f : string) :
  test_js f = true ↔ ∃ stem, f = stem +:+ ".js".
Proof.
  induction f as [|ch f IH].
  - split; [done|]. intros [[|? ?] ?]; done.
  - change (test_js (String ch f))
      with (bool_decide (String ch f = ".js") || test_js f).
    rewrite orb_true_iff, IH, bool_decide_eq_true. split.
    + intros [->|[stem ->]]; [by exists ""|by exists (String ch stem)].
    + intros [[|ch' stem] H]; [by left|right].
      exists stem. by inversion H.
Qed.

Lemma lfilter_sublist {A} (P : A → bool) (l : list A) :
  List.filter P l `sublist_of` l.
Proof.
  induction l as [|x l IH]; simpl; [done|].
  destruct (P x); [by apply sublist_skip|by apply sublist_cons].
Qed.

Lemma lfilter_split {A} (P : A → bool) (l : list A) :
  l ≡ₚ List.filter P l ++ List.filter (λ x, negb (P x)) l.
Proof.
  induction l as [|x l IH]; simpl; [done|].
  destruct (P x); simpl.
  - by rewrite <- IH.
  - by rewrite <- Permutation_middle, <- IH.
Qed.

Lemma lfilter_Forall {A} (P : A → bool) (l : list A) :
  Forall (λ x, P x = true) (List.filter P l).
Proof.
  induction l as [|x l IH]; simpl; [done|].
  destruct (P x) eqn:Hx; [by constructor|done].
Qed.

Lemma lfilter_all {A} (P : A → bool) (l : list A) :
  Forall (λ x, P x = true) l → List.filter P l = l.
Proof.
  induction 1 as [|x l Hx _ IH]; simpl; [done|]. by rewrite Hx, IH.
Qed.

(** X12. When the directory cannot be read, [getAuditList] throws what
    [readdirSync] threw.  Otherwise it returns the entries whose name
    ends in [.js], each as often as the directory lists it and in the
    order of the listing; every other entry is left out. *)
Theorem getAuditList_selects_js_entries (io : Files) :
  match fs_readdirSync io (path_join io (dirname io) "./audits") with
  | inl e => getAuditList io = inl e
  | inr files =>
      ∃ names others,
        getAuditList io = inr names ∧
        names `sublist_of` files ∧
        files ≡ₚ names ++ others ∧
        Forall (λ f, ∃ stem, f = stem +:+ ".js") names ∧
        Forall (λ f, ¬ ∃ stem, f = stem +:+ ".js") others
  end.
Proof.
  unfold getAuditList.
  destruct (fs_readdirSync io _) as [e|files]; [done|].
  exists (List.filter test_js files),
         (List.filter (λ f, negb (test_js f)) files).
  split; [done|]. split; [apply lfilter_sublist|]. split; [apply lfilter_split|].
  split.
  - eapply Forall_impl; [apply lfilter_Forall|]. intros f. apply test_js_spec.
  - eapply Forall_impl; [apply (lfilter_Forall (λ f, negb (test_js f)))|].
    intros f Hf Hjs. apply test_js_spec in Hjs. simpl in Hf. by rewrite Hjs in Hf.
Qed.

(** X13. A list that [getAuditList] returned is a fixed point: a
    directory that lists just these names gives them back unchanged. *)
Theorem getAuditList_stable (io io' : Files) (names : list string) :
  getAuditList io = inr names →
  fs_readdirSync io' (path_join io' (dirname io') "./audits") = inr names →
  getAuditList io' = inr names.
Proof.
  unfold getAuditList. intros H ->.
  destruct (fs_readdirSync io _) as [e|files]; [done|].
  injection H as <-. f_equal. apply lfilter_all, lfilter_Forall.
Qed.

(** * The model at work *)

Import Demo.

(** A URL without a scheme: [parsedURL.protocol] is [null] and the URL
    check throws, whatever the configuration. *)
Example run_without_scheme :
  result (run env tt (request "example.com" (config_results None) None)) =
    Threw (TypeError "Cannot read property 'includes' of null").
Proof. reflexivity. Qed.

(** Mode A without [opts.flags]: the call throws after the gatherer was
    chained, so the gatherer still runs; the audits never do. *)
Example run_gather_no_flags :
  result (run env tt request_gather_no_flags) =
    Threw (TypeError "Cannot read property 'saveArtifacts' of undefined") ∧
  scheduled (run env tt request_gather_no_flags) =
    [Gather ["pass-1"] (final_opts (run env tt request_gather_no_flags))].
Proof. by split. Qed.

(** The audits settle in another order than they were started in: the
    [statusEnd] lines follow the settling, the results the array. *)
Example run_settling_order :
  scheduled (run env tt request_artifacts) =
    [SaveArtifacts "supplied";
     SaveAssets (final_opts (run env tt request_artifacts)) "supplied";
     Status "Evaluating: late"; RunAudit 0 "supplied";
     Status "Evaluating: second"; RunAudit 1 "supplied";
     StatusEnd "Evaluating: second"; StatusEnd "Evaluating: late";
     Aggregate "agg" [result_a; result_b]].
Proof. reflexivity. Qed.

(** [http://localhost] is warned about like any other [http:] URL, and
    [https://localhost] is not. *)
Example run_localhost :
  logged (run env tt (request "http://localhost" (config_results None) None)) =
    https_warnings ∧
  logged (run env tt (request "https://localhost" (config_results None) None)) = [].
Proof. by split. Qed.

(** ** C1 *)



(** ** C2 *)



(** ** C3 *)



(** ** C4 *)

(** Two results of the same name share one entry, the later one: three
    audits, two entries. *)
Lemma same_name_one_entry :
  ∃ report l,
    result (run env tt request_same_name) = Returned (Fulfilled (Shaped report)) ∧
    audits (config request_same_name) = Some l ∧
    length l = 3 ∧
    size (report_audits report) = 2 ∧
    size (report_audits report) ≠ length l ∧
    report_audits report !! "a" = Some result_a'.
Proof. do 2 eexists. split; [reflexivity|]. split; [reflexivity|]. by vm_compute. Qed.

(** What falls short of one entry per audit, each called once: without
    [opts.flags] no audit is called; an audit that throws keeps the later
    ones from being called; two results of one name share an entry; a
    result named [__proto__] has none. *)
Lemma audits_mapping_falls_short :
  (audits (config request_gather_no_flags) = Some [audit_late; audit_b] ∧
   List.filter is_audit (trace (run env tt request_gather_no_flags)) = []) ∧
  (audits (config request_throwing) = Some [audit_b; audit_throwing; audit_a] ∧
   List.filter is_audit (trace (run env tt request_throwing)) =
     [RunAudit 0 "supplied"; RunAudit 1 "supplied"]) ∧
  (∃ report,
     result (run env tt request_same_name) = Returned (Fulfilled (Shaped report)) ∧
     audits (config request_same_name) = Some [audit_a; audit_b; audit_a'] ∧
     size (report_audits report) = 2) ∧
  (∃ report,
     result (run env tt request_proto) = Returned (Fulfilled (Shaped report)) ∧
     audits (config request_proto) = Some [audit_a; audit_proto] ∧
     size (report_audits report) = 1 ∧
     report_audits report !! "__proto__" = None).
Proof.
  split; [by vm_compute|]. split; [by vm_compute|].
  split; eexists; (split; [reflexivity|]); by vm_compute.
Qed.

(** The audit [audit_late] settles after [audit_b]; its result comes
    first all the same. *)
Lemma audits_run_once_witness :
  List.filter is_audit (trace (run env tt request_artifacts)) =
    [RunAudit 0 "supplied"; RunAudit 1 "supplied"] ∧
  result (run env tt request_artifacts) =
    Returned (Fulfilled (Shaped (report_of env request_artifacts
                                   [result_a; result_b] [1; 2]))) ∧
  size (formatAudits [result_a; result_b]) = 2.
Proof.
  assert (has_scheme env request_artifacts) as Hs by (by eexists).
  assert (yields_artifacts env (final_opts (run env tt request_artifacts))
            (config request_artifacts) [audit_late; audit_b] "supplied") as Hy
    by (by split).
  assert (Forall2 (audit_yields "supplied") [audit_late; audit_b] [result_a; result_b])
    as HF by (by repeat constructor).
  destruct (audits_run_once_in_configured_order env tt request_artifacts save_flags
              [audit_late; audit_b] "supplied" Hs eq_refl Hy eq_refl) as [Hcalls Hrs].
  destruct (Hrs [result_a; result_b] HF)
    as (_ & _ & Hres & _ & _ & _ & _ & _ & Hsize).
  split; [|split; [exact Hres|]].
  - apply Hcalls. intros d Hd.
    apply elem_of_cons in Hd as [->|Hd]; [done|].
    by apply list_elem_of_singleton in Hd as ->.
  - apply Hsize.
    + apply (bool_decide_unpack (NoDup (name <$> [result_a; result_b]))).
      by vm_compute.
    + by repeat constructor.
Defined.

(** ** C5 *)

Lemma report_shape_witness :
  result (run env tt request_results) =
    Returned (Fulfilled (Shaped (report_of env request_results [result_a; result_b] [1; 2]))) ∧
  Aggregator_aggregate env "agg" [result_a; result_b] = Returns [1; 2] ∧
  result (run env tt request_results_flat) =
    Returned (Fulfilled (Flat [result_a; result_b])).
Proof.
  split; [|split; [reflexivity|]].
  - apply (report_shape_iff_aggregations env tt request_results).
    exists [result_a; result_b]. split; [by split; [eexists|]|].
    by exists [1; 2].
  - apply (report_shape_iff_aggregations env tt request_results_flat).
    exists [result_a; result_b]. by split; [split; [eexists|]|].
Defined.

(** ** C6 *)

(** Saving fails asynchronously: the promise [saveArtifacts] returns
    rejects, nobody waits for it, the audits run and the call fulfils. *)
Lemma rejected_save_is_not_awaited :
  saveArtifacts save_flags = true ∧
  assetSaver_saveArtifacts env_save_rejects "gathered" =
    ReturnsPromise 1 (Rejected (Error "ENOSPC")) ∧
  List.filter is_persist (trace (run env_save_rejects tt request_gather)) =
    [SaveArtifacts "gathered";
     SaveAssets (final_opts (run env_save_rejects tt request_gather)) "gathered"] ∧
  List.filter is_audit (trace (run env_save_rejects tt request_gather)) =
    [RunAudit 0 "gathered"; RunAudit 1 "gathered"] ∧
  result (run env_save_rejects tt request_gather) =
    Returned (Fulfilled (Flat [result_a; result_b])).
Proof. by vm_compute. Qed.

(** Saving throws: the call rejects and no audit runs. *)
Lemma persistence_calls_witness :
  List.filter is_persist (trace (run env_save_throws tt request_gather)) =
    [SaveArtifacts "gathered"] ∧
  result (run env_save_throws tt request_gather) = Returned (Rejected (Error "EACCES")) ∧
  List.filter is_audit (trace (run env_save_throws tt request_gather)) = [].
Proof.
  assert (has_scheme env_save_throws request_gather) as Hs by (by eexists).
  assert (yields_artifacts env_save_throws
            (final_opts (run env_save_throws tt request_gather))
            (config request_gather) [audit_late; audit_b] "gathered") as Hy
    by (by split).
  destruct (persistence_calls_pass_artifacts_on env_save_throws tt request_gather
              save_flags [audit_late; audit_b] "gathered" Hs eq_refl Hy)
    as (Hcalls & Hthrow & _).
  destruct (Hthrow (Error "EACCES") eq_refl) as (Hres & Haud & _).
  split; [exact Hcalls|]. by split.
Defined.

(** ** C7 *)

(** Two audits fail: the call rejects with the failure that settles
    first, and the other one is not reported. *)
Lemma later_failure_is_dropped :
  audits (config request_two_failing) = Some [audit_failing_late; audit_failing] ∧
  audit_fails "supplied" audit_failing_late (Error "late failure") ∧
  audit_fails "supplied" audit_failing (Error "audit failed") ∧
  result (run env tt request_two_failing) = Returned (Rejected (Error "audit failed")) ∧
  result (run env tt request_two_failing) ≠ Returned (Rejected (Error "late failure")).
Proof. by vm_compute. Qed.

Lemma failing_audit_witness :
  result (run env tt request_failing) = Returned (Rejected (Error "audit failed")) ∧
  List.filter is_aggregate (trace (run env tt request_failing)) = [].
Proof.
  assert (has_scheme env request_failing) as Hs by (by eexists).
  assert (yields_artifacts env (final_opts (run env tt request_failing))
            (config request_failing) [audit_b; audit_failing; audit_a] "supplied") as Hy
    by (by split).
  assert (audit_failing ∈ [audit_b; audit_failing; audit_a]) as Hin
    by (right; left).
  destruct (failing_audit_rejects_run env tt request_failing no_flags
              [audit_b; audit_failing; audit_a] "supplied" audit_failing
              (Error "audit failed") Hs eq_refl Hy eq_refl Hin eq_refl)
    as (e' & d' & Hres & _ & _ & Hagg & _ & _ & Honly).
  rewrite Hres in *. split; [|exact Hagg]. do 2 f_equal. apply Honly.
  intros d'' e'' Hd'' Hfail. unfold audit_fails in Hfail.
  apply elem_of_cons in Hd'' as [->|Hd'']; [discriminate|].
  apply elem_of_cons in Hd'' as [->|Hd'']; [by inversion Hfail|].
  apply list_elem_of_singleton in Hd'' as ->. discriminate.
Defined.

(** ** C8 *)

Lemma url_recorded_witness :
  initialUrl (final_opts (run env tt request_results)) = Some "http://example.com" ∧
  url (final_opts (run env tt request_results)) = "http://example.com/" ∧
  length (List.filter is_warn (trace (run env tt request_results))) = 2 ∧
  List.filter is_warn (trace (run env tt request_secure)) = [] ∧
  ∃ report,
    result (run env tt request_results) = Returned (Fulfilled (Shaped report)) ∧
    report_initialUrl report = Some "http://example.com" ∧
    report_url report = "http://example.com/".
Proof.
  destruct (url_recorded_and_canonicalized env tt request_results)
    as (Hi & Hu & _ & _ & Hhttp & _ & Hreport).
  destruct (url_recorded_and_canonicalized env tt request_secure)
    as (_ & _ & _ & _ & _ & Hhttps & _).
  split; [exact Hi|]. split; [exact Hu|]. split; [|split].
  - by apply Hhttp.
  - by apply Hhttps.
  - apply (Hreport [result_a; result_b] "agg" [1; 2]); [|reflexivity..].
    split; [by eexists|reflexivity].
Defined.

(** ** C9 *)

(** After the call the [opts] object is not what it was. *)
Lemma run_mutates_opts :
  final_opts (run env tt request_gather) ≠ request_gather ∧
  initialUrl request_gather = None ∧
  initialUrl (final_opts (run env tt request_gather)) = Some "https://example.com/" ∧
  driver request_gather = None ∧
  driver (final_opts (run env tt request_gather)) = Some tt ∧
  url request_results = "http://example.com" ∧
  url (final_opts (run env tt request_results)) = "http://example.com/".
Proof.
  split; [|by vm_compute].
  intros H. apply (f_equal initialUrl) in H. by vm_compute in H.
Qed.

(** ** C10 *)



(** ** Further properties *)

Lemma gather_failure_witness :
  result (run env_gather_rejects tt request_gather) =
    Returned (Rejected (Error "no page")) ∧
  scheduled (run env_gather_rejects tt request_gather) =
    [Gather ["pass-1"] (final_opts (run env_gather_rejects tt request_gather))].
Proof.
  apply (gather_failure_rejects_run env_gather_rejects tt request_gather save_flags
           ["pass-1"] [audit_late; audit_b] (Error "no page"));
    [by eexists|reflexivity..].
Defined.

Lemma phases_in_sequence_witness :
  scheduled (run env tt request_artifacts) =
    [SaveArtifacts "supplied";
     SaveAssets (final_opts (run env tt request_artifacts)) "supplied";
     Status "Evaluating: late"; RunAudit 0 "supplied";
     Status "Evaluating: second"; RunAudit 1 "supplied";
     StatusEnd "Evaluating: second"; StatusEnd "Evaluating: late";
     Aggregate "agg" [result_a; result_b]].
Proof.
  assert (has_scheme env request_artifacts) as Hs by (by eexists).
  assert (yields_artifacts env (final_opts (run env tt request_artifacts))
            (config request_artifacts) [audit_late; audit_b] "supplied") as Hy
    by (by split).
  destruct (phases_in_sequence env tt request_artifacts save_flags
              [audit_late; audit_b] "supplied" Hs eq_refl Hy eq_refl) as [H _].
  exact H.
Defined.

Lemma aggregation_failure_witness :
  result (run env_aggregate_rejects tt request_results) =
    Returned (Rejected (Error "no score")).
Proof.
  apply (aggregation_failure_rejects_run env_aggregate_rejects tt request_results
           [result_a; result_b] "agg" (Error "no score")); [|reflexivity..].
  split; [by eexists|reflexivity].
Defined.

Lemma no_audits_witness :
  List.filter is_audit (trace (run env tt request_no_audits)) = [] ∧
  result (run env tt request_no_audits) =
    Returned (Fulfilled (Shaped (report_of env request_no_audits [] []))).
Proof.
  assert (has_scheme env request_no_audits) as Hs by (by eexists).
  assert (yields_artifacts env (final_opts (run env tt request_no_audits))
            (config request_no_audits) [] "supplied") as Hy
    by (by split).
  destruct (no_audits_configured env tt request_no_audits save_flags "supplied"
              Hs eq_refl Hy eq_refl) as [Hcalls [Hres _]].
  by split.
Defined.

Lemma throwing_audit_witness :
  result (run env tt request_throwing) = Returned (Rejected (Error "audit threw")) ∧
  List.filter is_audit (trace (run env tt request_throwing)) =
    [RunAudit 0 "supplied"; RunAudit 1 "supplied"].
Proof.
  assert (has_scheme env request_throwing) as Hs by (by eexists).
  assert (yields_artifacts env (final_opts (run env tt request_throwing))
            (config request_throwing) ([audit_b] ++ audit_throwing :: [audit_a])
            "supplied") as Hy
    by (by split).
  assert (∀ d', d' ∈ [audit_b] → thrown_by (audit d' "supplied") = None) as Hno
    by (by intros d' ->%list_elem_of_singleton).
  destruct (throwing_audit_stops_map env tt request_throwing no_flags
              [audit_b] audit_throwing [audit_a] "supplied" (Error "audit threw")
              Hs eq_refl Hy eq_refl Hno eq_refl) as (Hres & Hcalls & _).
  by split.
Defined.

Lemma status_lines_witness :
  ∃ ends : list (event unit string string nat string),
    (run_audits [audit_late; audit_failing; audit_b] "supplied").1 =
      [Status "Evaluating: late"; RunAudit 0 "supplied";
       Status "Evaluating: failing"; RunAudit 1 "supplied";
       Status "Evaluating: second"; RunAudit 2 "supplied"] ++ ends ∧
    ends ≡ₚ [StatusEnd "Evaluating: late"; StatusEnd "Evaluating: second"].
Proof.
  apply (status_lines_frame_audits (Driver := unit) (Pass := string)
           (AggregationSpec := string)
           [audit_late; audit_failing; audit_b] "supplied").
  intros d Hd.
  apply elem_of_cons in Hd as [->|Hd]; [done|].
  apply elem_of_cons in Hd as [->|Hd]; [done|].
  by apply list_elem_of_singleton in Hd as ->.
Defined.

Lemma last_write_wins_witness :
  formatAudits ([result_a] ++ result_a' :: [result_b]) !! "a" = Some result_a' ∧
  formatAudits ([result_a] ++ result_a' :: [result_b]) !! "__proto__" = None ∧
  size (formatAudits ([result_a] ++ result_a' :: [result_b])) ≤ 3.
Proof.
  apply (formatAudits_last_write_wins [result_a] result_a' [result_b]); [done|].
  by intros r' ->%list_elem_of_singleton.
Defined.

Lemma gatherer_opts_witness :
  driver (final_opts (run env tt request_gather)) = Some tt ∧
  url (final_opts (run env tt request_gather)) = "https://example.com/" ∧
  initialUrl (final_opts (run env tt request_gather)) = Some "https://example.com/".
Proof.
  assert (Gather ["pass-1"] (final_opts (run env tt request_gather))
            ∈ trace (run env tt request_gather)) as Hin by (vm_compute; left).
  destruct (gatherer_receives_prepared_opts env tt request_gather _ _ Hin)
    as (_ & _ & Hd & Hu & Hi & _).
  by split.
Defined.

Lemma driver_unused_witness :
  run env_handles 1 request_handles = run env_handles 2 request_handles.
Proof.
  apply (driver_unused_outside_mode_A env_handles 1 2 request_handles). reflexivity.
Defined.

Lemma warnings_witness :
  List.filter is_warn (trace (run env tt request_secure)) = [] ∧
  List.filter is_warn
    (trace (run env tt (request "http://localhost" (config_results None) None))) =
    https_warnings.
Proof.
  split.
  - apply (warnings_iff_insecure_scheme env tt request_secure "https:");
      [reflexivity|]. split; [by exists "", ":"|done].
  - destruct (warnings_iff_insecure_scheme env tt
                (request "http://localhost" (config_results None) None) "http:"
                eq_refl) as [_ [H|H]]; [|exact H].
    by vm_compute in H.
Defined.

Lemma getAuditList_witness :
  getAuditList audits_directory = inr ["audit.js"; "viewport.js"; ".js"] ∧
  getAuditList audits_missing = inl (Error "ENOENT").
Proof.
  pose proof (getAuditList_selects_js_entries audits_directory) as H.
  pose proof (getAuditList_selects_js_entries audits_missing) as H'.
  split; [|exact H'].
  destruct H as (names & others & Heq & _). rewrite Heq.
  vm_compute in Heq. by injection Heq as <-.
Defined.

Lemma getAuditList_stable_witness :
  getAuditList
    {| dirname := "/copy"; path_join := path_join audits_directory;
       fs_readdirSync := fun _ => inr ["audit.js"; "viewport.js"; ".js"] |} =
  inr ["audit.js"; "viewport.js"; ".js"].
Proof.
  apply (getAuditList_stable audits_directory); reflexivity.
Defined.
